(** * The ledger core of RNR1/Blockchain, embedded in Rocq

    The development follows [src/blockchain.py] and
    [src/utility/hash_util.py].  The [Blockchain] class becomes a record
    and every method a function from the state before the call to the
    state after it together with the returned value.  Whatever the
    methods obtain from outside the process (peer replies, the clock, the
    snapshot file) is an explicit argument.

    Conventions.
    - Amounts, proofs, indexes and timestamps are Python numbers; they are
      integers [Z] here.
    - Payloads received from peers are records with exactly the keys the
      code reads.
    - The peers are a finite set; a loop over them visits
      [elements (peer_nodes l)], whose order stands for the iteration
      order of the Python set.
    - A method that raises has assigned nothing before: the only
      statement of the model that raises outside the constructor is
      [chain[-1]] on an empty chain, at the start of a method.
    - [hashlib.sha256], [json.dumps] and the classes that live outside
      [src/] ([Verification], [Wallet], [Transaction.to_ordered_dict])
      are variables of the section, or definitions marked as modelled
      from the specification. *)

From stdpp Require Import gmap strings list.
From Stdlib Require Import ZArith Lia.

Local Open Scope string_scope.
Local Open Scope list_scope.

(** ** Data model *)

(** [Transaction(sender, recipient, signature, amount)]. *)
Record Transaction := mkTransaction {
  sender : string;
  recipient : string;
  signature : string;
  amount : Z
}.

(** [Block(index, previous_hash, transactions, proof, timestamp)]. *)
Record Block := mkBlock {
  index : Z;
  previous_hash : string;
  transactions : list Transaction;
  proof : Z;
  timestamp : Z
}.

#[global] Instance Transaction_eq_dec : EqDecision Transaction.
Proof. solve_decision. Defined.

#[global] Instance Block_eq_dec : EqDecision Block.
Proof. solve_decision. Defined.

(** The mapping a peer sends for one transaction: the keys ['sender'],
    ['recipient'], ['signature'] and ['amount']. *)
Record tx_dict := mkTxDict {
  d_sender : string;
  d_recipient : string;
  d_signature : string;
  d_amount : Z
}.

(** The mapping a peer sends for one block. *)
Record block_dict := mkBlockDict {
  d_index : Z;
  d_previous_hash : string;
  d_transactions : list tx_dict;
  d_proof : Z;
  d_timestamp : Z
}.

(** [Transaction(tx['sender'], tx['recipient'], tx['signature'], tx['amount'])] *)
Definition Transaction_of_dict (tx : tx_dict) : Transaction :=
  mkTransaction (d_sender tx) (d_recipient tx) (d_signature tx) (d_amount tx).

(** The conversion of [resolve]: a [Block] from the mapping of a peer. *)
Definition Block_of_dict (block : block_dict) : Block :=
  mkBlock (d_index block) (d_previous_hash block)
          (map Transaction_of_dict (d_transactions block))
          (d_proof block) (d_timestamp block).

(** [tx.__dict__] and [block.__dict__] with the transactions expanded, as
    [mine_block] prepares a block for the broadcast. *)
Definition dict_of_Transaction (tx : Transaction) : tx_dict :=
  mkTxDict (sender tx) (recipient tx) (signature tx) (amount tx).

Definition dict_of_Block (b : Block) : block_dict :=
  mkBlockDict (index b) (previous_hash b)
              (map dict_of_Transaction (transactions b))
              (proof b) (timestamp b).

Definition MINING_REWARD : Z := 10.

(** [genesis_block = Block(0, '', [], 100, 0)] *)
Definition genesis_block : Block := mkBlock 0 "" [] 100 0.

(** What [pickle.loads] yields for a snapshot written by [save_data]. *)
Record snapshot := mkSnapshot {
  snap_chain : list Block;
  snap_ot : list Transaction;
  snap_pn : gset string
}.

(** The file [blockchain-{node_id}.p] as [open] finds it. *)
Inductive file_state :=
| FileMissing                    (* open raises FileNotFoundError *)
| FileUnreadable                 (* open or read raises another IOError *)
| FileCorrupt                    (* pickle.loads raises UnpicklingError *)
| FilePickled (s : snapshot).    (* a snapshot written by save_data *)

(** The attributes of a [Blockchain] object, and the snapshot file of its
    node. *)
Record Blockchain := mkBlockchain {
  chain : list Block;
  open_transactions : list Transaction;
  public_key : option string;
  peer_nodes : gset string;
  node_id : string;
  resolve_conflicts : bool;
  file : file_state;
  (** whether the file can be opened for writing *)
  writable : bool
}.

Definition set_chain (v : list Block) (l : Blockchain) : Blockchain :=
  mkBlockchain v (open_transactions l) (public_key l) (peer_nodes l)
               (node_id l) (resolve_conflicts l) (file l) (writable l).

Definition set_open_transactions (v : list Transaction) (l : Blockchain) : Blockchain :=
  mkBlockchain (chain l) v (public_key l) (peer_nodes l)
               (node_id l) (resolve_conflicts l) (file l) (writable l).

Definition set_peer_nodes (v : gset string) (l : Blockchain) : Blockchain :=
  mkBlockchain (chain l) (open_transactions l) (public_key l) v
               (node_id l) (resolve_conflicts l) (file l) (writable l).

Definition set_resolve_conflicts (v : bool) (l : Blockchain) : Blockchain :=
  mkBlockchain (chain l) (open_transactions l) (public_key l) (peer_nodes l)
               (node_id l) v (file l) (writable l).

Definition set_file (v : file_state) (l : Blockchain) : Blockchain :=
  mkBlockchain (chain l) (open_transactions l) (public_key l) (peer_nodes l)
               (node_id l) (resolve_conflicts l) v (writable l).

(** ** Results of calls *)

Inductive exn :=
| IOError
| IndexError
| UnpicklingError.

(** A call returns a value, raises, or is still running when the fuel
    given to the proof search is spent. *)
Inductive outcome (A : Type) :=
| Return (a : A)
| Raise (e : exn)
| OutOfFuel.
Arguments Return {A} a.
Arguments Raise {A} e.
Arguments OutOfFuel {A}.

(** What [requests.post] gives back. *)
Inductive response :=
| Status (status_code : Z)
| PostConnectionError.

(** What [requests.get(url).json()] gives back. *)
Inductive fetched :=
| Chain (node_chain : list block_dict)
| GetConnectionError.

(** The values [json.dumps] serialises in [hash_block]. *)
#[warnings="-register-all"]
Inductive json :=
| JNum (z : Z)
| JStr (s : string)
| JArr (items : list json)
| JObj (members : list (string * json)).

(** [l[-1]] and [l[:-1]] *)
Definition last_item {A} (l : list A) : option A := last l.

Definition all_but_last {A} (l : list A) : list A := removelast l.

(** [list.remove(x)]: drops the first item equal to [x]; [None] stands
    for the [ValueError] raised when there is none.  Transactions carry
    no identity in this model, so the item removed is the first one with
    the fields of [x]; the list that results has the same fields at the
    same positions as after Python's removal of the object itself. *)
Fixpoint list_remove (x : Transaction) (l : list Transaction)
  : option (list Transaction) :=
  match l with
  | [] => None
  | y :: l' =>
      if decide (y = x) then Some l'
      else match list_remove x l' with
           | Some r => Some (y :: r)
           | None => None
           end
  end.

(** [sum(amount)] *)
Definition sum (amount : list Z) : Z := fold_left Z.add amount 0%Z.

(** ** A small instance to run the ledger on

    Stand-ins for the functions the ledger takes from outside, and the
    ledgers, blocks and peers of the worked examples below. *)
Module Toy.

Definition sha256_hexdigest (s : string) : string := "00" +:+ s.

Definition json_dumps (value : json) : string :=
  match value with
  | JObj ((_, JNum z) :: _) => if (z =? 0)%Z then "{genesis}" else "{block}"
  | _ => "{}"
  end.

Definition to_ordered_dict (tx : Transaction) : json :=
  JObj [("sender", JStr (sender tx)); ("recipient", JStr (recipient tx));
        ("amount", JNum (amount tx))].

(** A proof is valid when it adds up with the number of transactions to
    2 modulo 3. *)
Definition valid_proof (txs : list Transaction) (last_hash : string)
           (proof : Z) : bool :=
  ((Z.of_nat (length txs) + proof) mod 3 =? 2)%Z.

Definition Wallet_verify_transaction (tx : Transaction) : bool :=
  negb (String.eqb (signature tx) "forged").

Definition peer : string := "localhost:5001".

(** The ledger of a fresh node of the miner ["M"]. *)
Definition node : Blockchain :=
  mkBlockchain [genesis_block] [] (Some "M") ∅ "5000" false FileMissing true.

Definition reward : Transaction := mkTransaction "MINING" "M" "" 10.

(** The block [node] mines at time 1700000000. *)
Definition first_block : Block :=
  mkBlock 1 "00{genesis}" [reward] 2 1700000000.

Definition mined_once : Blockchain :=
  mkBlockchain [genesis_block; first_block] [] (Some "M") ∅ "5000" false
    (FilePickled (mkSnapshot [genesis_block; first_block] [] ∅)) true.

(** A chain on which ["A"] holds 10 coins, and a peer that declines
    whatever it is sent. *)
Definition grant : Block :=
  mkBlock 1 "00{genesis}" [mkTransaction "MINING" "A" "" 10] 2 1.

Definition funded : Blockchain :=
  mkBlockchain [genesis_block; grant] [] (Some "A") {[peer]} "5000" false
    FileMissing true.

Definition decline {A} (node : string) (payload : A) : response := Status 400.

Definition silent {A} (node : string) (payload : A) : response :=
  PostConnectionError.

Definition a_to_b : Transaction := mkTransaction "A" "B" "sig" 3.

(** The chain of the balance scenario: ["A"] is granted 10 coins, then
    ["M"] mines the transfer of 3 coins from ["A"] to ["B"]. *)
Definition transfer : Block :=
  mkBlock 2 "00{block}" [a_to_b; reward] 1 2.

Definition settled : Blockchain :=
  mkBlockchain [genesis_block; grant; transfer] [] (Some "M") ∅ "5000" false
    FileMissing true.

(** A ledger with two open transactions, and blocks a peer may send. *)
Definition c_to_d : Transaction := mkTransaction "C" "D" "sig2" 0.

Definition pending : Blockchain :=
  mkBlockchain [genesis_block] [a_to_b; c_to_d] (Some "M") ∅ "5000" false
    FileMissing true.

Definition incoming : block_dict :=
  mkBlockDict 1 "00{genesis}"
              [mkTxDict "A" "B" "sig" 3; mkTxDict "MINING" "P" "" 10] 1 5.

Definition tampered : block_dict :=
  mkBlockDict 1 "tampered"
              [mkTxDict "A" "B" "sig" 3; mkTxDict "MINING" "P" "" 10] 1 5.

(** A pool that holds a transaction twice, and a block that lists it
    twice: the second removal of each copy finds it gone. *)
Definition crowded : Blockchain :=
  mkBlockchain [genesis_block] [a_to_b; c_to_d; a_to_b] (Some "M") ∅ "5000"
    false FileMissing false.

Definition repeated : block_dict :=
  mkBlockDict 1 "00{genesis}"
              [mkTxDict "A" "B" "sig" 3; mkTxDict "A" "B" "sig" 3;
               mkTxDict "MINING" "P" "" 10] 0 5.

Definition misplaced : block_dict := mkBlockDict 7 "00{genesis}" [] 2 5.

Definition misindexed : Blockchain :=
  mkBlockchain [genesis_block; mkBlock 7 "00{genesis}" [] 2 5] []
    (Some "M") ∅ "5000" false
    (FilePickled
       (mkSnapshot [genesis_block; mkBlock 7 "00{genesis}" [] 2 5] [] ∅))
    true.

(** A ledger whose open transaction carries a forged signature. *)
Definition forged : Blockchain :=
  mkBlockchain [genesis_block] [mkTransaction "A" "B" "forged" 0] (Some "M")
    ∅ "5000" false FileMissing true.

(** A peer whose chain is the genesis block alone. *)
Definition short_chain (node : string) : fetched :=
  Chain [dict_of_Block genesis_block].

(** The scenario of the specification for [resolve]: a local chain of
    two blocks, a peer with three blocks of which the last has a wrong
    proof, and a peer with four valid blocks. *)
Definition second_block : Block := mkBlock 2 "00{block}" [reward] 2 1700000001.
Definition third_block : Block := mkBlock 3 "00{block}" [reward] 2 1700000002.
Definition wrong_block : Block := mkBlock 2 "00{block}" [reward] 0 1700000001.

Definition other_peer : string := "localhost:5002".

Definition contested : Blockchain :=
  mkBlockchain [genesis_block; first_block] [a_to_b] (Some "M")
    {[peer; other_peer]} "5000" true FileMissing true.

Definition peer_chains (node : string) : fetched :=
  if String.eqb node peer
  then Chain (map dict_of_Block [genesis_block; first_block; wrong_block])
  else Chain (map dict_of_Block
                  [genesis_block; first_block; second_block; third_block]).

(** A peer that reports a conflict, and what [funded] holds after mining
    at time 7 when its peer declines the block, or reports a conflict. *)
Definition conflict {A} (node : string) (payload : A) : response := Status 409.

Definition funded_block : Block :=
  mkBlock 2 "00{block}" [mkTransaction "MINING" "A" "" 10] 2 7.

Definition funded_declined : Blockchain :=
  mkBlockchain [genesis_block; grant; funded_block] [] (Some "A") {[peer]}
    "5000" false
    (FilePickled (mkSnapshot [genesis_block; grant; funded_block] []
                             {[peer]})) true.

Definition funded_conflicted : Blockchain :=
  mkBlockchain [genesis_block; grant; funded_block] [] (Some "A") {[peer]}
    "5000" true
    (FilePickled (mkSnapshot [genesis_block; grant; funded_block] []
                             {[peer]})) true.

(** What [pending] holds after mining at time 9. *)
Definition pending_block : Block :=
  mkBlock 1 "00{genesis}" [a_to_b; c_to_d; reward] 0 9.

Definition pending_mined : Blockchain :=
  mkBlockchain [genesis_block; pending_block] [] (Some "M") ∅ "5000" false
    (FilePickled (mkSnapshot [genesis_block; pending_block] [] ∅)) true.

(** [node] on a disk that can be neither read nor written. *)
Definition read_only : Blockchain :=
  mkBlockchain [genesis_block] [] (Some "M") ∅ "5000" false FileUnreadable
    false.

Definition read_only_mined : Blockchain :=
  mkBlockchain [genesis_block; first_block] [] (Some "M") ∅ "5000" false
    FileUnreadable false.

(** [node] after it has accepted [incoming], then added [other_peer],
    then resolved against [peer_chains]. *)
Definition accepted : Blockchain :=
  mkBlockchain [genesis_block; Block_of_dict incoming] [] (Some "M") ∅ "5000"
    false
    (FilePickled (mkSnapshot [genesis_block; Block_of_dict incoming] [] ∅))
    true.

Definition accepted_peered : Blockchain :=
  mkBlockchain [genesis_block; Block_of_dict incoming] [] (Some "M")
    {[other_peer]} "5000" false
    (FilePickled (mkSnapshot [genesis_block; Block_of_dict incoming] []
                             {[other_peer]}))
    true.

Definition reconciled : Blockchain :=
  mkBlockchain [genesis_block; first_block; second_block; third_block] []
    (Some "M") {[other_peer]} "5000" false
    (FilePickled
       (mkSnapshot [genesis_block; first_block; second_block; third_block] []
                   {[other_peer]}))
    true.

End Toy.

(** ** src/assignment.py

    The script keeps a list [inputs] and the file [input.txt].  Each
    line the user types is a step of the loop; what the script prints is
    left out.  The file is taken to accept writes, and to hold, when it
    parses, the list of strings an earlier run of the script wrote. *)
Module Assignment.

(** [input.txt] as [open] and [json.loads] find it. *)
Inductive input_file :=
| Absent                          (* open(..., 'r') raises FileNotFoundError *)
| Unparsable                      (* json.loads raises JSONDecodeError *)
| Holds (saved : list string).    (* json.dumps of a list of strings *)

Record state := mkState {
  inputs : list string;
  input_txt : input_file
}.

Inductive error := FileNotFoundError | JSONDecodeError.

(** How the loop ends: by [break], by the end of the input ([input]
    raises [EOFError]), or by an exception of the ['o'] branch. *)
Inductive ending :=
| Break (s : state)
| EndOfInput (s : state)
| Crash (e : error) (s : state).

(** The [while True] loop, for the lines the user types. *)
Fixpoint loop (lines : list string) (s : state) : ending :=
  match lines with
  | [] => EndOfInput s
  | user_input :: rest =>
      if String.eqb user_input "q" then Break s
      else if String.eqb user_input "o" then
        match input_txt s with
        | Absent => Crash FileNotFoundError s
        | Unparsable => Crash JSONDecodeError s
        | Holds saved => loop rest (mkState saved (input_txt s))
        end
      else
        let inputs' := inputs s ++ [user_input] in
        loop rest (mkState inputs' (Holds inputs'))
  end.

(** The script starts with [inputs = []]. *)
Definition start (f : input_file) : state := mkState [] f.

(** The lines typed before the first ["q"] that are not the command
    ["o"]. *)
Fixpoint entered (lines : list string) : list string :=
  match lines with
  | [] => []
  | user_input :: rest =>
      if String.eqb user_input "q" then []
      else if String.eqb user_input "o" then entered rest
      else user_input :: entered rest
  end.

(** The state at the end of a run that did not crash. *)
Definition final (e : ending) : option state :=
  match e with
  | Break s | EndOfInput s => Some s
  | Crash _ _ => None
  end.

End Assignment.

Section Ledger.

Set Default Proof Using "Type".

(** [hashlib.sha256(string).hexdigest()] *)
Variable sha256_hexdigest : string -> string.
(** [json.dumps(value, sort_keys=True).encode()] *)
Variable json_dumps : json -> string.
(** [Transaction.to_ordered_dict] *)
Variable to_ordered_dict : Transaction -> json.
(** [Verification.valid_proof(transactions, last_hash, proof)] *)
Variable valid_proof : list Transaction -> string -> Z -> bool.
(** [Wallet.verify_transaction(transaction)] *)
Variable Wallet_verify_transaction : Transaction -> bool.

(** *** utility/hash_util.py *)

Definition hash_string_256 (s : string) : string := sha256_hexdigest s.

(** The keys of [block.__dict__] are the attributes of a [Block]. *)
Definition hash_block (block : Block) : string :=
  let hashable_block :=
    JObj [("index", JNum (index block));
          ("previous_hash", JStr (previous_hash block));
          ("timestamp", JNum (timestamp block));
          ("transactions", JArr (map to_ordered_dict (transactions block)));
          ("proof", JNum (proof block))] in
  hash_string_256 (json_dumps hashable_block).

(** *** Verification *)

(** Modelled from the spec: [Verification.verify_chain] is not under
    [src/].  A chain is valid iff every block after the first has the
    hash of its predecessor as [previous_hash] and a valid proof over
    all of its transactions but the last; the scan stops at the first
    violation. *)
Fixpoint verify_links (previous : Block) (blocks : list Block) : bool :=
  match blocks with
  | [] => true
  | block :: rest =>
      if negb (String.eqb (previous_hash block) (hash_block previous)) then false
      else if negb (valid_proof (all_but_last (transactions block))
                                (previous_hash block) (proof block)) then false
      else verify_links block rest
  end.

Definition verify_chain (blockchain : list Block) : bool :=
  match blockchain with
  | [] => true
  | first :: rest => verify_links first rest
  end.

(** Modelled from the spec: [Verification.verify_transaction] is not
    under [src/].  A transaction is valid iff the balance of its sender
    is at least its amount, or its sender is ["MINING"]. *)
Definition verify_transaction (transaction : Transaction)
           (get_balance : option string -> option Z) : bool :=
  String.eqb (sender transaction) "MINING"
  || match get_balance (Some (sender transaction)) with
     | Some sender_balance => (amount transaction <=? sender_balance)%Z
     | None => false
     end.

(** *** Blockchain: persistence *)

Definition load_data (l : Blockchain) : outcome Blockchain :=
  let file_content :=
    match file l with
    | FileMissing | FileUnreadable => Raise IOError
    | FileCorrupt => Raise UnpicklingError
    | FilePickled s => Return s
    end in
  match file_content with
  | Return s =>
      Return (set_peer_nodes (snap_pn s)
               (set_open_transactions (snap_ot s)
                 (set_chain (snap_chain s) l)))
  | Raise IOError | Raise IndexError => Return l
  | Raise e => Raise e
  | OutOfFuel => OutOfFuel
  end.

Definition save_data (l : Blockchain) : Blockchain :=
  if writable l then
    set_file (FilePickled (mkSnapshot (chain l) (open_transactions l)
                                      (peer_nodes l))) l
  else l.

(** [Blockchain(public_key, node_id)], for a node whose snapshot file
    is in state [f]. *)
Definition Blockchain_init (public_key : option string) (node_id : string)
           (f : file_state) (w : bool) : outcome Blockchain :=
  load_data (mkBlockchain [genesis_block] [] public_key ∅ node_id false f w).

(** *** Blockchain: proof of work *)

(** The [while] loop of [proof_of_work], at most [fuel] tests. *)
Fixpoint proof_search (fuel : nat) (txs : list Transaction)
         (last_hash : string) (proof : Z) : option Z :=
  match fuel with
  | O => None
  | S fuel' =>
      if valid_proof txs last_hash proof then Some proof
      else proof_search fuel' txs last_hash (proof + 1)%Z
  end.

Definition proof_of_work (fuel : nat) (l : Blockchain) : outcome Z :=
  match last_item (chain l) with
  | None => Raise IndexError
  | Some last_block =>
      let last_hash := hash_block last_block in
      match proof_search fuel (open_transactions l) last_hash 0%Z with
      | Some proof => Return proof
      | None => OutOfFuel
      end
  end.

(** *** Blockchain: balances *)

Definition get_balance (l : Blockchain) (sender_arg : option string)
  : option Z :=
  let participant :=
    match sender_arg with
    | None => public_key l
    | Some s => Some s
    end in
  match participant with
  | None => None
  | Some participant =>
      let tx_sender :=
        map (fun block =>
               map amount
                   (filter (fun tx => sender tx = participant)
                           (transactions block)))
            (chain l) in
      let open_tx_sender :=
        map amount
            (filter (fun tx => sender tx = participant)
                    (open_transactions l)) in
      let tx_sender := tx_sender ++ [open_tx_sender] in
      let amount_sent :=
        fold_left (fun (tx_sum : Z) (amount : list Z) =>
                     if bool_decide (length amount ≠ 0) then (tx_sum + sum amount)%Z
                     else (tx_sum + 0)%Z)
                  tx_sender 0%Z in
      let tx_recipient :=
        map (fun block =>
               map amount
                   (filter (fun tx => recipient tx = participant)
                           (transactions block)))
            (chain l) in
      let amount_received :=
        fold_left (fun (tx_sum : Z) (amount : list Z) =>
                     if bool_decide (length amount ≠ 0) then (tx_sum + sum amount)%Z
                     else (tx_sum + 0)%Z)
                  tx_recipient 0%Z in
      Some (amount_received - amount_sent)%Z
  end.

(** *** Blockchain: transaction admission *)

(** The loop of [add_transaction] over the peers: [false] when the loop
    is left by [return False]. *)
Fixpoint relay_transaction (post : string -> tx_dict -> response)
         (tx : tx_dict) (nodes : list string) : bool :=
  match nodes with
  | [] => true
  | node :: rest =>
      match post node tx with
      | Status status_code =>
          if (status_code =? 400)%Z || (status_code =? 500)%Z then false
          else relay_transaction post tx rest
      | PostConnectionError => relay_transaction post tx rest
      end
  end.

Definition add_transaction (post : string -> tx_dict -> response)
           (recipient_arg sender_arg signature_arg : string) (amount_arg : Z)
           (is_receiving : bool) (l : Blockchain) : bool * Blockchain :=
  let transaction :=
    mkTransaction sender_arg recipient_arg signature_arg amount_arg in
  if verify_transaction transaction (get_balance l) then
    let l1 := set_open_transactions (open_transactions l ++ [transaction]) l in
    let l2 := save_data l1 in
    if negb is_receiving then
      (relay_transaction post
         (mkTxDict sender_arg recipient_arg signature_arg amount_arg)
         (elements (peer_nodes l2)), l2)
    else (true, l2)
  else (false, l).

(** *** Blockchain: mining *)

(** The loop of [mine_block] over the peers: [false] when the loop is
    left by [return None]. *)
Fixpoint broadcast_block (post : string -> block_dict -> response)
         (converted_block : block_dict) (nodes : list string)
         (l : Blockchain) : bool * Blockchain :=
  match nodes with
  | [] => (true, l)
  | node :: rest =>
      match post node converted_block with
      | Status status_code =>
          if (status_code =? 400)%Z || (status_code =? 500)%Z then (false, l)
          else
            let l' := if (status_code =? 409)%Z
                      then set_resolve_conflicts true l else l in
            broadcast_block post converted_block rest l'
      | PostConnectionError => broadcast_block post converted_block rest l
      end
  end.

(** [now] is the time the [Block] constructor reads for the timestamp. *)
Definition mine_block (fuel : nat) (now : Z)
           (post : string -> block_dict -> response) (l : Blockchain)
  : outcome (option Block * Blockchain) :=
  match public_key l with
  | None => Return (None, l)
  | Some key =>
      match last_item (chain l) with
      | None => Raise IndexError
      | Some last_block =>
          let hashed_block := hash_block last_block in
          match proof_of_work fuel l with
          | Raise e => Raise e
          | OutOfFuel => OutOfFuel
          | Return proof =>
              let reward_transaction :=
                mkTransaction "MINING" key "" MINING_REWARD in
              let copied_transactions := open_transactions l in
              if negb (forallb Wallet_verify_transaction copied_transactions)
              then Return (None, l)
              else
                let copied_transactions :=
                  copied_transactions ++ [reward_transaction] in
                let block :=
                  mkBlock (Z.of_nat (length (chain l))) hashed_block
                          copied_transactions proof now in
                let l1 := set_chain (chain l ++ [block]) l in
                let l2 := set_open_transactions [] l1 in
                let l3 := save_data l2 in
                match broadcast_block post (dict_of_Block block)
                                      (elements (peer_nodes l3)) l3 with
                | (true, l4) => Return (Some block, l4)
                | (false, l4) => Return (None, l4)
                end
          end
      end
  end.

(** *** Blockchain: blocks and chains of peers *)

(** The test of the inner loop of [add_block]. *)
Definition same_transaction (open_tx : Transaction) (incoming_tx : tx_dict)
  : bool :=
  String.eqb (sender open_tx) (d_sender incoming_tx)
  && String.eqb (recipient open_tx) (d_recipient incoming_tx)
  && (amount open_tx =? d_amount incoming_tx)%Z
  && String.eqb (signature open_tx) (d_signature incoming_tx).

(** The inner loop of [add_block], for one incoming transaction: [pool]
    is [self.__open_transactions]. *)
Fixpoint remove_matching (incoming_tx : tx_dict)
         (stored_transactions pool : list Transaction) : list Transaction :=
  match stored_transactions with
  | [] => pool
  | open_tx :: rest =>
      if same_transaction open_tx incoming_tx then
        match list_remove open_tx pool with
        | Some pool' => remove_matching incoming_tx rest pool'
        | None => remove_matching incoming_tx rest pool
        end
      else remove_matching incoming_tx rest pool
  end.

(** The outer loop of [add_block]. *)
Fixpoint remove_incoming (incoming : list tx_dict)
         (stored_transactions pool : list Transaction) : list Transaction :=
  match incoming with
  | [] => pool
  | incoming_tx :: rest =>
      remove_incoming rest stored_transactions
                      (remove_matching incoming_tx stored_transactions pool)
  end.

Definition add_block (block : block_dict) (l : Blockchain)
  : outcome (bool * Blockchain) :=
  let transactions := map Transaction_of_dict (d_transactions block) in
  let proof_is_valid :=
    valid_proof (all_but_last transactions) (d_previous_hash block)
                (d_proof block) in
  match last_item (chain l) with
  | None => Raise IndexError
  | Some last_block =>
      let hashes_match :=
        String.eqb (hash_block last_block) (d_previous_hash block) in
      if negb proof_is_valid || negb hashes_match then Return (false, l)
      else
        let converted_block :=
          mkBlock (d_index block) (d_previous_hash block) transactions
                  (d_proof block) (d_timestamp block) in
        let l1 := set_chain (chain l ++ [converted_block]) l in
        let stored_transactions := open_transactions l1 in
        let l2 :=
          set_open_transactions
            (remove_incoming (d_transactions block) stored_transactions
                             (open_transactions l1)) l1 in
        Return (true, save_data l2)
  end.

(** The body of the loop of [resolve], for the reply of one peer. *)
Definition resolve_step (get : string -> fetched)
           (acc : list Block * bool) (node : string) : list Block * bool :=
  let '(winner_chain, replace) := acc in
  match get node with
  | Chain node_chain =>
      let node_chain := map Block_of_dict node_chain in
      if bool_decide (length winner_chain < length node_chain)
         && verify_chain node_chain
      then (node_chain, true)
      else (winner_chain, replace)
  | GetConnectionError => (winner_chain, replace)
  end.

Definition resolve (get : string -> fetched) (l : Blockchain)
  : bool * Blockchain :=
  let '(winner_chain, replace) :=
    fold_left (resolve_step get) (elements (peer_nodes l)) (chain l, false) in
  let l1 := set_resolve_conflicts false l in
  let l2 := set_chain winner_chain l1 in
  let l3 := if replace then set_open_transactions [] l2 else l2 in
  (replace, save_data l3).

(** *** Blockchain: peers *)

Definition add_peer_node (node : string) (l : Blockchain) : Blockchain :=
  save_data (set_peer_nodes ({[node]} ∪ peer_nodes l) l).

Definition remove_peer_node (node : string) (l : Blockchain) : Blockchain :=
  save_data (set_peer_nodes (peer_nodes l ∖ {[node]}) l).

(** *** Calls and reachable states *)

(** One call of a method of the class, with what it reads from outside. *)
Inductive call :=
| AddTransaction (post : string -> tx_dict -> response)
                 (recipient_arg sender_arg signature_arg : string)
                 (amount_arg : Z) (is_receiving : bool)
| MineBlock (fuel : nat) (now : Z) (post : string -> block_dict -> response)
| AddBlock (block : block_dict)
| Resolve (get : string -> fetched)
| AddPeerNode (node : string)
| RemovePeerNode (node : string).

(** The state a call leaves behind when it returns. *)
Definition run (c : call) (l : Blockchain) : outcome Blockchain :=
  match c with
  | AddTransaction post r s sg a recv =>
      Return (snd (add_transaction post r s sg a recv l))
  | MineBlock fuel now post =>
      match mine_block fuel now post l with
      | Return (_, l') => Return l'
      | Raise e => Raise e
      | OutOfFuel => OutOfFuel
      end
  | AddBlock block =>
      match add_block block l with
      | Return (_, l') => Return l'
      | Raise e => Raise e
      | OutOfFuel => OutOfFuel
      end
  | Resolve get => Return (snd (resolve get l))
  | AddPeerNode node => Return (add_peer_node node l)
  | RemovePeerNode node => Return (remove_peer_node node l)
  end.

(** The states reached from [l0] by calls that satisfy [allowed]. *)
Inductive reachable (allowed : Blockchain -> call -> Prop) (l0 : Blockchain)
  : Blockchain -> Prop :=
| reachable_init : reachable allowed l0 l0
| reachable_call l c l' :
    reachable allowed l0 l -> allowed l c -> run c l = Return l' ->
    reachable allowed l0 l'.

(** The chains built from the genesis block by [mine_block] alone: the
    other attributes may change between two calls. *)
Inductive mined : Blockchain -> Prop :=
| mined_genesis l : chain l = [genesis_block] -> mined l
| mined_block fuel now post l r l' :
    mined l -> mine_block fuel now post l = Return (r, l') -> mined l'
| mined_frame l l' : mined l -> chain l' = chain l -> mined l'.

(** Every block after the first carries the hash of its predecessor and
    a proof that is valid for all of its transactions but the last. *)
Definition chain_linked (c : list Block) : Prop :=
  forall (i : nat) (previous block : Block),
    c !! i = Some previous -> c !! S i = Some block ->
    previous_hash block = hash_block previous
    /\ valid_proof (all_but_last (transactions block))
                   (previous_hash block) (proof block) = true.

(** Every block has its position as [index]. *)
Definition chain_indexed (c : list Block) : Prop :=
  forall (i : nat) (block : Block),
    c !! i = Some block -> index block = Z.of_nat i.

(** *** The balance as the specification words it *)

(** The sum of the amounts that [participant] sent in [txs]. *)
Fixpoint amount_sent_in (participant : string) (txs : list Transaction) : Z :=
  match txs with
  | [] => 0
  | tx :: rest =>
      ((if decide (sender tx = participant) then amount tx else 0)
       + amount_sent_in participant rest)%Z
  end.

(** The sum of the amounts that [participant] received in [txs]. *)
Fixpoint amount_received_in (participant : string) (txs : list Transaction) : Z :=
  match txs with
  | [] => 0
  | tx :: rest =>
      ((if decide (recipient tx = participant) then amount tx else 0)
       + amount_received_in participant rest)%Z
  end.

(** The transactions of all mined blocks, in the order of the chain. *)
Definition mined_transactions (l : Blockchain) : list Transaction :=
  concat (map transactions (chain l)).

(** Received in the mined blocks, minus sent in the mined blocks and in
    the open transactions. *)
Definition spec_balance (l : Blockchain) (participant : string) : Z :=
  (amount_received_in participant (mined_transactions l)
   - (amount_sent_in participant (mined_transactions l)
      + amount_sent_in participant (open_transactions l)))%Z.

(** *** Structural matching *)

(** A pending transaction and an incoming one match when sender,
    recipient, amount and signature are all equal. *)
Definition matches (open_tx : Transaction) (incoming_tx : tx_dict) : Prop :=
  sender open_tx = d_sender incoming_tx
  /\ recipient open_tx = d_recipient incoming_tx
  /\ amount open_tx = d_amount incoming_tx
  /\ signature open_tx = d_signature incoming_tx.

#[global] Instance matches_dec open_tx incoming_tx :
  Decision (matches open_tx incoming_tx).
Proof. unfold matches. apply _. Defined.

(** The pending transaction matches none of the incoming ones. *)
Definition unmatched (incoming : list tx_dict) (open_tx : Transaction) : Prop :=
  Forall (fun incoming_tx => ~ matches open_tx incoming_tx) incoming.

(** *** Chains of peers *)

(** [c] is the chain some node of [nodes] answers with, rebuilt, and it
    passes [verify_chain]. *)
Definition candidate (get : string -> fetched) (nodes : list string)
           (c : list Block) : Prop :=
  exists node node_chain,
    node ∈ nodes /\ get node = Chain node_chain
    /\ c = map Block_of_dict node_chain /\ verify_chain c = true.

(** *** Calls on well indexed input *)

(** The call takes no block from a peer whose [index] is not the
    position the block gets: a block that [add_block] accepts carries
    the length of the local chain, and the chain of a peer that
    [resolve] adopts is indexed by position.  Nothing is asked of a
    block that is rejected nor of a chain that is not adopted. *)
Definition indexed_input (l : Blockchain) (c : call) : Prop :=
  match c with
  | AddBlock block =>
      forall l', add_block block l = Return (true, l') ->
                 d_index block = Z.of_nat (length (chain l))
  | Resolve get =>
      forall node node_chain,
        node ∈ peer_nodes l -> get node = Chain node_chain ->
        fst (resolve get l) = true ->
        chain (snd (resolve get l)) = map Block_of_dict node_chain ->
        chain_indexed (map Block_of_dict node_chain)
  | _ => True
  end.

(** Any call. *)
Definition any_input (l : Blockchain) (c : call) : Prop := True.

(** *** Further methods and notions *)

(** [get_last_blockchain_value] *)
Definition get_last_blockchain_value (l : Blockchain) : option Block :=
  if bool_decide (length (chain l) = 0) then None else last_item (chain l).

(** What [save_data] pickles. *)
Definition persisted (l : Blockchain) : snapshot :=
  mkSnapshot (chain l) (open_transactions l) (peer_nodes l).

(** The snapshot file holds the chain, the open transactions and the
    peers of the ledger. *)
Definition in_sync (l : Blockchain) : Prop := file l = FilePickled (persisted l).

(** A constructor that reads the file of [l] gets the chain, the open
    transactions and the peers of [l] back. *)
Definition recoverable (l : Blockchain) : Prop :=
  match file l with
  | FilePickled s => s = persisted l
  | FileCorrupt => False
  | FileMissing | FileUnreadable =>
      chain l = [genesis_block] /\ open_transactions l = []
      /\ peer_nodes l = ∅
  end.

(** A block as [mine_block] builds it on a node whose public key is
    [key]: transactions that pass [Wallet.verify_transaction], then the
    reward of [MINING_REWARD] coins from ["MINING"] to [key]. *)
Definition rewarded (key : string) (block : Block) : Prop :=
  exists txs,
    transactions block = txs ++ [mkTransaction "MINING" key "" MINING_REWARD]
    /\ forallb Wallet_verify_transaction txs = true.

(** The chains built from the genesis block by [mine_block] alone on a
    node that keeps the public key [key]; the open transactions, the
    peers and the file may change between two calls. *)
Inductive mined_by (key : string) : Blockchain -> Prop :=
| mined_by_genesis l :
    chain l = [genesis_block] -> public_key l = Some key -> mined_by key l
| mined_by_block fuel now post l r l' :
    mined_by key l -> mine_block fuel now post l = Return (r, l') ->
    mined_by key l'
| mined_by_frame l l' :
    mined_by key l -> chain l' = chain l -> public_key l' = public_key l ->
    mined_by key l'.

(** The two ledgers differ at most in the snapshot file. *)
Definition same_attributes (l1 l2 : Blockchain) : Prop :=
  chain l1 = chain l2
  /\ open_transactions l1 = open_transactions l2
  /\ public_key l1 = public_key l2
  /\ peer_nodes l1 = peer_nodes l2
  /\ node_id l1 = node_id l2
  /\ resolve_conflicts l1 = resolve_conflicts l2.

(** ** Properties *)

(** *** Setters and persistence *)

Lemma save_data_chain l : chain (save_data l) = chain l.
Proof. unfold save_data. by destruct (writable l). Qed.

Lemma save_data_open_transactions l :
  open_transactions (save_data l) = open_transactions l.
Proof. unfold save_data. by destruct (writable l). Qed.

Lemma save_data_peer_nodes l : peer_nodes (save_data l) = peer_nodes l.
Proof. unfold save_data. by destruct (writable l). Qed.

Lemma save_data_public_key l : public_key (save_data l) = public_key l.
Proof. unfold save_data. by destruct (writable l). Qed.

Lemma save_data_resolve_conflicts l :
  resolve_conflicts (save_data l) = resolve_conflicts l.
Proof. unfold save_data. by destruct (writable l). Qed.

(** *** Linked chains *)

Lemma chain_linked_cons previous block rest :
  chain_linked (previous :: block :: rest) <->
  (previous_hash block = hash_block previous
   /\ valid_proof (all_but_last (transactions block))
                  (previous_hash block) (proof block) = true)
  /\ chain_linked (block :: rest).
Proof.
  split.
  - intros H. split.
    + by apply (H 0%nat).
    + intros i p b Hp Hb. by apply (H (S i)).
  - intros [H0 H] [|i] p b Hp Hb; simpl in *.
    + by simplify_eq.
    + by apply (H i).
Qed.

Lemma verify_links_linked rest : forall previous,
  verify_links previous rest = true <-> chain_linked (previous :: rest).
Proof.
  induction rest as [|block rest IH]; intros previous; simpl.
  - split; [|done]. intros _ i p b _ Hb. by destruct i.
  - rewrite chain_linked_cons, <- IH.
    destruct (String.eqb_spec (previous_hash block) (hash_block previous)) as [He|He];
      simpl; [|split; [done | tauto]].
    destruct (valid_proof _ _ _); simpl; [tauto | split; [done | intros [[_ ?] _]; done]].
Qed.

Lemma verify_chain_linked c : verify_chain c = true <-> chain_linked c.
Proof.
  destruct c as [|first rest]; simpl.
  - split; [|done]. by intros _ i p b Hp.
  - apply verify_links_linked.
Qed.

Lemma chain_linked_snoc c last_block block :
  last_item c = Some last_block ->
  chain_linked c ->
  previous_hash block = hash_block last_block ->
  valid_proof (all_but_last (transactions block))
              (previous_hash block) (proof block) = true ->
  chain_linked (c ++ [block]).
Proof.
  unfold last_item. intros Hlast Hc Hh Hp i p b Hi HSi.
  apply last_Some in Hlast as [c' ->].
  destruct (decide (S i < length (c' ++ [last_block]))) as [Hlt|Hge].
  - rewrite lookup_app_l in Hi by lia. rewrite lookup_app_l in HSi by lia.
    by apply (Hc i).
  - apply lookup_lt_Some in HSi as Hlen. rewrite !length_app in *. simpl in *.
    assert (i = length c') as -> by lia.
    rewrite lookup_app_l in Hi by (rewrite length_app; simpl; lia).
    rewrite lookup_app_r, Nat.sub_diag in Hi by lia.
    rewrite lookup_app_r in HSi by (rewrite length_app; simpl; lia).
    rewrite length_app in HSi. simpl in HSi.
    replace (S (length c') - (length c' + 1)) with 0%nat in HSi by lia.
    simpl in *. by simplify_eq.
Qed.

(** *** Proof of work *)

Lemma proof_search_valid fuel txs last_hash : forall start found,
  proof_search fuel txs last_hash start = Some found ->
  valid_proof txs last_hash found = true /\ (start <= found)%Z.
Proof.
  induction fuel as [|fuel IH]; intros start found; simpl; [done|].
  destruct (valid_proof txs last_hash start) eqn:Hv.
  - intros [= <-]. split; [done | lia].
  - intros H. apply IH in H as [? ?]. split; [done | lia].
Qed.

(** The search ends as soon as the fuel covers a valid proof. *)
Lemma proof_search_finds fuel txs last_hash : forall start valid,
  valid_proof txs last_hash valid = true ->
  (start <= valid)%Z -> Z.to_nat (valid - start) < fuel ->
  exists found, proof_search fuel txs last_hash start = Some found
                /\ (found <= valid)%Z.
Proof.
  induction fuel as [|fuel IH]; intros start valid Hv Hle Hfuel; [lia|].
  simpl. destruct (valid_proof txs last_hash start) eqn:Hs.
  - exists start. split; [done | lia].
  - assert (start <> valid) by (intros ->; congruence).
    apply (IH (start + 1)%Z valid Hv); lia.
Qed.

Lemma proof_of_work_returns fuel l last_block valid :
  last_item (chain l) = Some last_block ->
  (0 <= valid)%Z ->
  valid_proof (open_transactions l) (hash_block last_block) valid = true ->
  Z.to_nat valid < fuel ->
  exists proof, proof_of_work fuel l = Return proof
    /\ valid_proof (open_transactions l) (hash_block last_block) proof = true.
Proof.
  intros Hlast H0 Hv Hfuel. unfold proof_of_work. rewrite Hlast.
  destruct (proof_search_finds fuel (open_transactions l)
              (hash_block last_block) 0%Z valid Hv H0) as (found & Hf & _).
  { by rewrite Z.sub_0_r. }
  rewrite Hf. exists found. split; [done|].
  by apply proof_search_valid in Hf as [? _].
Qed.

(** *** Mining *)

Lemma broadcast_block_frame post converted_block nodes : forall l,
  let l' := snd (broadcast_block post converted_block nodes l) in
  chain l' = chain l /\ open_transactions l' = open_transactions l
  /\ peer_nodes l' = peer_nodes l /\ public_key l' = public_key l.
Proof.
  induction nodes as [|node rest IH]; intros l; simpl; [done|].
  destruct (post node converted_block) as [code|]; [|apply IH].
  destruct ((code =? 400)%Z || (code =? 500)%Z); simpl; [done|].
  destruct (code =? 409)%Z; [exact (IH (set_resolve_conflicts true l)) | apply IH].
Qed.

(** What a call of [mine_block] that returns has done to the chain and
    to the pool. *)
Lemma mine_block_returned fuel now post l r l' :
  mine_block fuel now post l = Return (r, l') ->
  (r = None /\ l' = l)
  \/ (exists key last_block proof,
        public_key l = Some key
        /\ last_item (chain l) = Some last_block
        /\ valid_proof (open_transactions l) (hash_block last_block) proof = true
        /\ forallb Wallet_verify_transaction (open_transactions l) = true
        /\ let block :=
             mkBlock (Z.of_nat (length (chain l))) (hash_block last_block)
                     (open_transactions l
                        ++ [mkTransaction "MINING" key "" MINING_REWARD])
                     proof now in
           chain l' = chain l ++ [block]
           /\ open_transactions l' = []
           /\ peer_nodes l' = peer_nodes l
           /\ public_key l' = public_key l
           /\ (r = None \/ r = Some block)).
Proof.
  unfold mine_block, proof_of_work.
  destruct (public_key l) as [key|] eqn:Hkey; [|intros [= <- <-]; by left].
  destruct (last_item (chain l)) as [last_block|] eqn:Hlast; [|done].
  destruct (proof_search _ _ _ _) as [proof|] eqn:Hsearch; [|done].
  destruct (forallb _ _) eqn:Hall; simpl; [|intros [= <- <-]; by left].
  intros H. right. exists key, last_block, proof.
  apply proof_search_valid in Hsearch as [Hv _].
  match type of H with
  | context [broadcast_block ?p ?b ?n ?s] =>
      pose proof (broadcast_block_frame p b n s) as (Hc & Ho & Hp & Hk);
      destruct (broadcast_block p b n s) as [[] l4]; simpl in *;
      injection H as <- <-;
      rewrite Hc, Ho, Hp, Hk, save_data_chain, save_data_open_transactions,
        save_data_peer_nodes, save_data_public_key; simpl
  end; repeat split; auto.
Qed.

Lemma mine_block_linked fuel now post l r l' :
  mine_block fuel now post l = Return (r, l') ->
  chain_linked (chain l) -> chain_linked (chain l').
Proof.
  intros H Hl. apply mine_block_returned in H as [[_ ->]|H]; [done|].
  destruct H as (key & last_block & proof & _ & Hlast & Hv & _ & -> & _).
  eapply chain_linked_snoc; eauto; simpl.
  unfold all_but_last. by rewrite removelast_last.
Qed.

(** C1: a chain built from the genesis block by calls of [mine_block]
    passes verification: every block after the first has the hash of
    the block before it as [previous_hash], and its proof is valid for
    all of its transactions but the last, the mining reward. *)
Theorem mined_chain_verifies l :
  mined l ->
  chain_linked (chain l) /\ verify_chain (chain l) = true.
Proof.
  intros H. rewrite verify_chain_linked. split; [|].
  all: induction H as [l Hg|fuel now post l r l' _ IH Hm|l l' _ IH Hc].
  all: try (rewrite Hg; intros [|i] p b Hp Hb; done).
  all: try (rewrite Hc; exact IH).
  all: eapply mine_block_linked; eauto.
Qed.

(** C7: [mine_block] returns [None] and changes nothing when the public
    key is unset, and when a pending transaction fails the signature
    check once the proof search, which the method runs before the
    check, has found a proof within the fuel.  In both cases a call
    that returns has appended no block, whatever the fuel. *)
Theorem mine_block_aborts fuel now post l :
  public_key l = None
  \/ ((exists tx, tx ∈ open_transactions l
                  /\ Wallet_verify_transaction tx = false)
      /\ exists last_block valid,
          last_item (chain l) = Some last_block
          /\ (0 <= valid)%Z
          /\ valid_proof (open_transactions l) (hash_block last_block) valid = true
          /\ Z.to_nat valid < fuel) ->
  mine_block fuel now post l = Return (None, l)
  /\ forall fuel' now' post' r l',
       mine_block fuel' now' post' l = Return (r, l') -> r = None /\ l' = l.
Proof.
  intros H.
  assert (public_key l = None
          \/ forallb Wallet_verify_transaction (open_transactions l) = false)
    as Hcause.
  { destruct H as [?|[(tx & Hin & Htx) _]]; [by left | right].
    apply not_true_is_false. intros Hall.
    rewrite forallb_forall in Hall. apply list_elem_of_In in Hin.
    specialize (Hall tx Hin). congruence. }
  split.
  - unfold mine_block. destruct (public_key l) as [key|] eqn:Hkey; [|done].
    destruct H as [?|[_ (last_block & valid & Hlast & H0 & Hv & Hfuel)]]; [done|].
    destruct Hcause as [?|Hall]; [done|].
    rewrite Hlast.
    destruct (proof_of_work_returns fuel l last_block valid) as (proof & -> & _);
      try done.
    by rewrite Hall.
  - intros fuel' now' post' r l' Hm.
    apply mine_block_returned in Hm as [?|Hm]; [done|].
    destruct Hm as (key & ? & ? & Hkey & _ & _ & Hall & _).
    destruct Hcause; congruence.
Qed.

(** *** Balances *)

Lemma fold_left_add (amounts : list Z) : forall acc,
  fold_left Z.add amounts acc = (acc + sum amounts)%Z.
Proof.
  unfold sum. induction amounts as [|a amounts IH]; intros acc; simpl; [lia|].
  rewrite (IH (acc + a)%Z), (IH (0 + a)%Z). lia.
Qed.

Lemma sum_cons a (amounts : list Z) : sum (a :: amounts) = (a + sum amounts)%Z.
Proof. unfold sum at 1. simpl. rewrite fold_left_add. lia. Qed.

(** The [else] branch of the lambda of [get_balance] adds what the
    [then] branch would add to an empty list. *)
Lemma reduce_step (tx_sum : Z) (amounts : list Z) :
  (if bool_decide (length amounts ≠ 0) then (tx_sum + sum amounts)%Z
   else (tx_sum + 0)%Z) = (tx_sum + sum amounts)%Z.
Proof.
  case_bool_decide as Hlen; [done|].
  destruct amounts; [done | simpl in Hlen; lia].
Qed.

Lemma sum_sent participant txs :
  sum (map amount (filter (fun tx => sender tx = participant) txs))
  = amount_sent_in participant txs.
Proof.
  induction txs as [|tx txs IH]; [done|].
  rewrite filter_cons. simpl. destruct (decide (sender tx = participant)).
  - simpl. by rewrite sum_cons, IH.
  - rewrite IH. lia.
Qed.

Lemma sum_received participant txs :
  sum (map amount (filter (fun tx => recipient tx = participant) txs))
  = amount_received_in participant txs.
Proof.
  induction txs as [|tx txs IH]; [done|].
  rewrite filter_cons. simpl. destruct (decide (recipient tx = participant)).
  - simpl. by rewrite sum_cons, IH.
  - rewrite IH. lia.
Qed.

Lemma amount_sent_in_app participant txs1 txs2 :
  amount_sent_in participant (txs1 ++ txs2)
  = (amount_sent_in participant txs1 + amount_sent_in participant txs2)%Z.
Proof. induction txs1 as [|tx txs1 IH]; simpl; [done | rewrite IH; lia]. Qed.

Lemma amount_received_in_app participant txs1 txs2 :
  amount_received_in participant (txs1 ++ txs2)
  = (amount_received_in participant txs1
     + amount_received_in participant txs2)%Z.
Proof. induction txs1 as [|tx txs1 IH]; simpl; [done | rewrite IH; lia]. Qed.

Lemma reduce_sent participant blocks : forall acc,
  fold_left (fun (tx_sum : Z) (amount : list Z) =>
               if bool_decide (length amount ≠ 0) then (tx_sum + sum amount)%Z
               else (tx_sum + 0)%Z)
            (map (fun block =>
                    map amount (filter (fun tx => sender tx = participant)
                                       (transactions block))) blocks) acc
  = (acc + amount_sent_in participant (concat (map transactions blocks)))%Z.
Proof.
  induction blocks as [|block blocks IH]; intros acc; simpl; [lia|].
  rewrite IH, reduce_step, sum_sent, amount_sent_in_app. lia.
Qed.

Lemma reduce_received participant blocks : forall acc,
  fold_left (fun (tx_sum : Z) (amount : list Z) =>
               if bool_decide (length amount ≠ 0) then (tx_sum + sum amount)%Z
               else (tx_sum + 0)%Z)
            (map (fun block =>
                    map amount (filter (fun tx => recipient tx = participant)
                                       (transactions block))) blocks) acc
  = (acc + amount_received_in participant (concat (map transactions blocks)))%Z.
Proof.
  induction blocks as [|block blocks IH]; intros acc; simpl; [lia|].
  rewrite IH, reduce_step, sum_received, amount_received_in_app. lia.
Qed.

(** C8: the balance [get_balance] returns for a participant is what the
    participant received in the mined blocks, minus what the
    participant sent in the mined blocks and in the open transactions;
    an open transaction debits its sender and does not credit its
    recipient. *)
Theorem get_balance_spec l participant :
  get_balance l (Some participant) = Some (spec_balance l participant).
Proof.
  unfold get_balance, spec_balance, mined_transactions. f_equal.
  rewrite fold_left_app, reduce_sent, reduce_received. simpl.
  rewrite reduce_step, sum_sent. lia.
Qed.

(** *** Construction *)

(** With the snapshot file missing, or not readable by [open], the
    constructor returns, and the ledger it builds has the genesis block
    [{index=0, previous_hash='', transactions=[], proof=100, timestamp=0}]
    as its only block, no open transaction and no peer. *)
Lemma init_without_snapshot public_key node_id w :
  Blockchain_init public_key node_id FileMissing w
  = Return (mkBlockchain [mkBlock 0 "" [] 100 0] [] public_key ∅
                         node_id false FileMissing w)
  /\ Blockchain_init public_key node_id FileUnreadable w
     = Return (mkBlockchain [mkBlock 0 "" [] 100 0] [] public_key ∅
                            node_id false FileUnreadable w).
Proof. split; reflexivity. Qed.

(** C9: the constructor does fail on a snapshot file that cannot be
    read as a snapshot.  When the file opens and its bytes do not
    unpickle, [pickle.loads] raises [UnpicklingError], which the clause
    [except (IOError, IndexError)] of [load_data] does not catch: the
    constructor raises and no ledger is built, where the files that are
    missing or that [open] cannot read give the genesis ledger. *)
Theorem init_corrupt_snapshot_raises public_key node_id w :
  Blockchain_init public_key node_id FileCorrupt w = Raise UnpicklingError
  /\ Blockchain_init public_key node_id FileMissing w
     = Return (mkBlockchain [genesis_block] [] public_key ∅ node_id false
                            FileMissing w)
  /\ Blockchain_init public_key node_id FileUnreadable w
     = Return (mkBlockchain [genesis_block] [] public_key ∅ node_id false
                            FileUnreadable w).
Proof. repeat split. Qed.

(** *** Blocks of peers *)

Lemma same_transaction_matches open_tx incoming_tx :
  same_transaction open_tx incoming_tx = true <-> matches open_tx incoming_tx.
Proof.
  unfold same_transaction, matches.
  rewrite !andb_true_iff, !String.eqb_eq, Z.eqb_eq.
  split; [intros [[[? ?] ?] ?] | intros (? & ? & ? & ?)]; auto.
Qed.

Lemma matches_eq open_tx incoming_tx :
  matches open_tx incoming_tx <-> open_tx = Transaction_of_dict incoming_tx.
Proof.
  unfold matches, Transaction_of_dict. destruct open_tx, incoming_tx; simpl.
  split; [intros (-> & -> & -> & ->); done | intros [= -> -> -> ->]; done].
Qed.

(** How many items of [l] are [x]. *)
Local Abbreviation count x l := (length (filter (fun y => y = x) l)).

Lemma list_remove_None x l :
  list_remove x l = None -> filter (fun y => y ≠ x) l = l /\ count x l = 0.
Proof.
  induction l as [|y l IH]; simpl; [done|].
  destruct (decide (y = x)) as [->|Hne]; [done|].
  destruct (list_remove x l); [done|]. intros _.
  destruct IH as [IH1 IH2]; [done|].
  rewrite !filter_cons. destruct (decide (y ≠ x)); [|done].
  destruct (decide (y = x)); [done|]. by rewrite IH1.
Qed.

Lemma list_remove_Some x l l' :
  list_remove x l = Some l' ->
  filter (fun y => y ≠ x) l' = filter (fun y => y ≠ x) l
  /\ count x l = S (count x l').
Proof.
  revert l'. induction l as [|y l IH]; intros l'; simpl; [done|].
  rewrite !filter_cons.
  destruct (decide (y = x)) as [->|Hne].
  - intros [= ->]. destruct (decide (x ≠ x)); done.
  - destruct (list_remove x l) as [r|]; [|done]. intros [= <-].
    destruct (IH r) as [IH1 IH2]; [done|].
    rewrite !filter_cons. destruct (decide (y ≠ x)); [|done].
    destruct (decide (y = x)); [done|]. by rewrite IH1.
Qed.

Lemma filter_ne_count x (l : list Transaction) :
  count x l = 0 -> filter (fun y => y ≠ x) l = l.
Proof.
  induction l as [|y l IH]; [done|]. rewrite !filter_cons.
  destruct (decide (y = x)); [done|]. intros H.
  destruct (decide (y ≠ x)); [|done]. by rewrite IH.
Qed.

(** One pass of the inner loop removes every copy of the incoming
    transaction, provided the pool holds no more copies of it than the
    list the loop runs over. *)
Lemma remove_matching_filter incoming_tx stored : forall pool,
  count (Transaction_of_dict incoming_tx) pool
    <= count (Transaction_of_dict incoming_tx) stored ->
  remove_matching incoming_tx stored pool
  = filter (fun open_tx => ~ matches open_tx incoming_tx) pool.
Proof.
  set (x := Transaction_of_dict incoming_tx).
  assert (forall pool : list Transaction,
            filter (fun open_tx => ~ matches open_tx incoming_tx) pool
                       = filter (fun y => y ≠ x) pool) as Hfilter.
  { intros pool. apply list_filter_iff. intros y. by rewrite matches_eq. }
  induction stored as [|open_tx stored IH]; intros pool Hcount; simpl.
  - rewrite Hfilter, filter_ne_count; [done | simpl in Hcount; lia].
  - rewrite filter_cons in Hcount.
    destruct (same_transaction open_tx incoming_tx) eqn:Hsame.
    + apply same_transaction_matches, matches_eq in Hsame. fold x in Hsame.
      subst open_tx. destruct (decide (x = x)); [|done]. simpl in Hcount.
      destruct (list_remove x pool) as [pool'|] eqn:Hremove.
      * apply list_remove_Some in Hremove as [Hf Hc].
        rewrite IH by lia. by rewrite !Hfilter.
      * apply list_remove_None in Hremove as [_ Hc]. apply IH. lia.
    + assert (open_tx ≠ x) as Hne.
      { intros ->. apply not_true_iff_false in Hsame. apply Hsame.
        by apply same_transaction_matches, matches_eq. }
      destruct (decide (open_tx = x)); [done|]. by apply IH.
Qed.

Lemma filter_count_le (P : Transaction -> Prop) `{!forall y, Decision (P y)}
      x (l : list Transaction) :
  count x (filter P l) <= count x l.
Proof.
  induction l as [|y l IH]; [done|]. rewrite !filter_cons.
  destruct (decide (P y)); destruct (decide (y = x)); simpl;
    rewrite ?filter_cons; repeat case_decide; simpl; try done; lia.
Qed.

(** The two loops together keep exactly the pending transactions that
    match no incoming one, in their order. *)
Lemma remove_incoming_filter stored : forall incoming pool,
  (forall x, count x pool <= count x stored) ->
  remove_incoming incoming stored pool = filter (unmatched incoming) pool.
Proof.
  induction incoming as [|incoming_tx incoming IH]; intros pool Hcount; simpl.
  - clear Hcount. induction pool as [|y pool IHpool]; [done|].
    rewrite filter_cons_True by constructor. by rewrite <- IHpool.
  - rewrite remove_matching_filter by apply Hcount.
    rewrite IH.
    + rewrite list_filter_filter. apply list_filter_iff. intros y.
      unfold unmatched. rewrite Forall_cons.
      split; intros [? ?]; split; assumption.
    + intros x. etrans; [apply filter_count_le | apply Hcount].
Qed.

(** C4: [add_block] returns [False] and leaves the ledger as it was,
    the chain and the open transactions included, when the proof is
    not valid for all incoming transactions but the last, or when the
    [previous_hash] of the incoming block is not the hash of the last
    block of the local chain. *)
Theorem add_block_rejects block l last_block :
  last_item (chain l) = Some last_block ->
  valid_proof (all_but_last (map Transaction_of_dict (d_transactions block)))
              (d_previous_hash block) (d_proof block) = false
  \/ d_previous_hash block ≠ hash_block last_block ->
  add_block block l = Return (false, l).
Proof.
  intros Hlast Hfail. unfold add_block. rewrite Hlast.
  destruct Hfail as [->|Hne]; [done|].
  assert (String.eqb (hash_block last_block) (d_previous_hash block) = false)
    as -> by (by apply String.eqb_neq).
  by rewrite orb_true_r.
Qed.

(** C5: when both checks pass, [add_block] returns [True], appends the
    block rebuilt from the incoming mapping, and keeps of the open
    transactions exactly those that match none of the incoming ones on
    sender, recipient, amount and signature, in their order. *)
Theorem add_block_accepts block l last_block :
  last_item (chain l) = Some last_block ->
  valid_proof (all_but_last (map Transaction_of_dict (d_transactions block)))
              (d_previous_hash block) (d_proof block) = true ->
  d_previous_hash block = hash_block last_block ->
  exists l',
    add_block block l = Return (true, l')
    /\ chain l' = chain l ++ [Block_of_dict block]
    /\ open_transactions l'
       = filter (unmatched (d_transactions block)) (open_transactions l)
    /\ (forall open_tx,
          open_tx ∈ open_transactions l' <->
          open_tx ∈ open_transactions l
          /\ ~ exists incoming_tx, incoming_tx ∈ d_transactions block
                                   /\ matches open_tx incoming_tx)
    /\ peer_nodes l' = peer_nodes l
    /\ public_key l' = public_key l
    /\ resolve_conflicts l' = resolve_conflicts l.
Proof.
  intros Hlast Hproof Hhash. unfold add_block. rewrite Hlast, Hproof, Hhash.
  rewrite String.eqb_refl. simpl. eexists. split; [done|].
  rewrite save_data_chain, save_data_open_transactions, save_data_peer_nodes,
    save_data_public_key, save_data_resolve_conflicts. simpl.
  rewrite remove_incoming_filter by done.
  split; [by rewrite <- Hhash|]. split; [done|]. split; [|done].
  intros open_tx. rewrite list_elem_of_filter. unfold unmatched.
  rewrite Forall_forall. split.
  - intros [Hun Hin]. split; [done|].
    intros (incoming_tx & Hinc & Hm). by apply (Hun incoming_tx).
  - intros [Hin Hno]. split; [|done].
    intros incoming_tx Hinc Hm. apply Hno. by exists incoming_tx.
Qed.

(** *** Conflict resolution *)

(** One step of the loop: the chain of the peer becomes the winner iff
    it is strictly longer than the current winner and passes
    [verify_chain]. *)
Lemma resolve_step_spec get winner_chain replace node :
  resolve_step get (winner_chain, replace) node
  = match get node with
    | Chain node_chain =>
        if bool_decide (length winner_chain
                        < length (map Block_of_dict node_chain))
           && verify_chain (map Block_of_dict node_chain)
        then (map Block_of_dict node_chain, true)
        else (winner_chain, replace)
    | GetConnectionError => (winner_chain, replace)
    end.
Proof. reflexivity. Qed.

Lemma candidate_cons get node nodes c :
  candidate get (node :: nodes) c <->
  (exists node_chain, get node = Chain node_chain
                      /\ c = map Block_of_dict node_chain
                      /\ verify_chain c = true)
  \/ candidate get nodes c.
Proof.
  unfold candidate. split.
  - intros (n & nc & Hin & Hget & Hc & Hv).
    apply elem_of_cons in Hin as [->|Hin]; [left | right]; eauto 8.
  - intros [(nc & Hget & Hc & Hv)|(n & nc & Hin & Hget & Hc & Hv)].
    + exists node, nc. repeat split; try done. by left.
    + exists n, nc. repeat split; try done. by right.
Qed.

(** The loop of [resolve]: the winner is never shorter than the chain
    it started from nor than a valid chain of a peer, and it is either
    the chain it started from or a valid chain of a peer that is
    strictly longer. *)
Lemma resolve_loop get nodes : forall winner_chain replace,
  let result := fold_left (resolve_step get) nodes (winner_chain, replace) in
  length winner_chain <= length (fst result)
  /\ (forall c, candidate get nodes c -> length c <= length (fst result))
  /\ ((result = (winner_chain, replace)
       /\ forall c, candidate get nodes c -> length c <= length winner_chain)
      \/ (snd result = true /\ candidate get nodes (fst result)
          /\ length winner_chain < length (fst result))).
Proof.
  induction nodes as [|node nodes IH]; intros winner_chain replace.
  - simpl. split; [done|].
    split; [intros c (n & nc & Hin & _); by apply elem_of_nil in Hin|].
    left. split; [done|]. intros c (n & nc & Hin & _).
    by apply elem_of_nil in Hin.
  - cbn [fold_left]. rewrite resolve_step_spec.
    destruct (get node) as [node_chain|] eqn:Hget.
    + set (c0 := map Block_of_dict node_chain).
      destruct (bool_decide (length winner_chain < length c0)
                && verify_chain c0) eqn:Htest.
      * apply andb_true_iff in Htest as [Hlen Hv].
        apply bool_decide_eq_true in Hlen.
        specialize (IH c0 true). cbv zeta in IH.
        destruct IH as (Hle & Hmax & Hcase).
        assert (candidate get (node :: nodes) c0) as Hc0.
        { apply candidate_cons. left. by exists node_chain. }
        split; [lia|]. split.
        { intros c [(nc & Hg & -> & _)|Hc]%candidate_cons; [|by apply Hmax].
          rewrite Hget in Hg. injection Hg as <-. done. }
        right. destruct Hcase as [[-> _]|(Hs & Hc & Hlt)]; simpl.
        { done. }
        split; [done|]. split; [|lia]. apply candidate_cons. by right.
      * specialize (IH winner_chain replace). cbv zeta in IH.
        destruct IH as (Hle & Hmax & Hcase).
        assert (forall c, candidate get (node :: nodes) c ->
                          candidate get nodes c
                          \/ length c <= length winner_chain) as Hsplit.
        { intros c [(nc & Hg & Hc & Hv)|Hc]%candidate_cons; [right | by left].
          rewrite Hget in Hg. injection Hg as <-. fold c0 in Hc. subst c.
          rewrite Hv, andb_true_r in Htest.
          apply bool_decide_eq_false in Htest. lia. }
        split; [done|]. split.
        { intros c [Hc|Hc]%Hsplit; [by apply Hmax | lia]. }
        destruct Hcase as [[Heq Hm]|(Hs & Hc & Hlt)]; [left | right].
        { split; [done|]. intros c [Hc|Hc]%Hsplit; [by apply Hm | done]. }
        split; [done|]. split; [|done]. apply candidate_cons. by right.
    + specialize (IH winner_chain replace). cbv zeta in IH.
      destruct IH as (Hle & Hmax & Hcase).
      assert (forall c, candidate get (node :: nodes) c ->
                        candidate get nodes c) as Hsplit.
      { intros c [(nc & Hg & _)|Hc]%candidate_cons; [congruence | done]. }
      split; [done|]. split; [intros c Hc%Hsplit; by apply Hmax|].
      destruct Hcase as [[Heq Hm]|(Hs & Hc & Hlt)]; [left | right].
      { split; [done|]. intros c Hc%Hsplit. by apply Hm. }
      split; [done|]. split; [|done]. apply candidate_cons. by right.
Qed.

(** What [resolve] returns and leaves behind, in terms of the valid
    chains of the peers. *)
Lemma resolve_outcome get l :
  let nodes := elements (peer_nodes l) in
  let replace := fst (resolve get l) in
  let l' := snd (resolve get l) in
  resolve_conflicts l' = false
  /\ peer_nodes l' = peer_nodes l
  /\ public_key l' = public_key l
  /\ ((replace = false /\ chain l' = chain l
       /\ open_transactions l' = open_transactions l
       /\ forall c, candidate get nodes c -> length c <= length (chain l))
      \/ (replace = true /\ candidate get nodes (chain l')
          /\ length (chain l) < length (chain l')
          /\ (forall c, candidate get nodes c -> length c <= length (chain l'))
          /\ open_transactions l' = [])).
Proof.
  intros nodes replace l'. subst replace l'. unfold resolve. fold nodes.
  pose proof (resolve_loop get nodes (chain l) false) as H. cbv zeta in H.
  destruct (fold_left (resolve_step get) nodes (chain l, false))
    as [winner_chain replace].
  simpl in H. destruct H as (_ & Hmax & Hcase). simpl.
  rewrite save_data_resolve_conflicts, save_data_peer_nodes,
    save_data_public_key, save_data_chain, save_data_open_transactions.
  destruct Hcase as [[[= -> ->] Hm]|(-> & Hc & Hlt)]; simpl.
  - repeat split; try done. left. repeat split; done.
  - repeat split; try done. right. repeat split; done.
Qed.

(** C2: [resolve] replaces the local chain iff a peer answers with a
    chain that passes [verify_chain] and is strictly longer; the chain
    adopted is such a chain, and no valid chain of a peer is longer.
    It returns [True] exactly when it replaced the chain, empties the
    open transactions exactly then, and clears [resolve_conflicts] in
    every case. *)
Theorem resolve_spec get l :
  let nodes := elements (peer_nodes l) in
  let replace := fst (resolve get l) in
  let l' := snd (resolve get l) in
  resolve_conflicts l' = false
  /\ (replace = true <->
      exists c, candidate get nodes c /\ length (chain l) < length c)
  /\ (replace = true <-> chain l' ≠ chain l)
  /\ (replace = true ->
      candidate get nodes (chain l')
      /\ length (chain l) < length (chain l')
      /\ (forall c, candidate get nodes c -> length c <= length (chain l'))
      /\ open_transactions l' = [])
  /\ (replace = false ->
      chain l' = chain l /\ open_transactions l' = open_transactions l).
Proof.
  intros nodes replace l'. subst nodes replace l'.
  destruct (resolve_outcome get l) as (Hflag & _ & _ & Hcase).
  split; [done|].
  destruct Hcase as [(-> & Hc & Ho & Hm)|(-> & Hc & Hlt & Hm & Ho)].
  - split; [|split; [|split]].
    + split; [done|]. intros (c & Hcand & Hlen). apply Hm in Hcand. lia.
    + split; [done|]. intros Hne. by rewrite Hc in Hne.
    + done.
    + done.
  - split; [|split; [|split]].
    + split; [|done]. intros _. eauto.
    + split; [|done]. intros _ Heq. rewrite Heq in Hlt. lia.
    + done.
    + done.
Qed.

(** C10: when [resolve] returns [False], the chain and the open
    transactions are those before the call, and so are the peers and
    the public key; [resolve_conflicts] is [False]. *)
Theorem resolve_false_frame get l :
  fst (resolve get l) = false ->
  let l' := snd (resolve get l) in
  chain l' = chain l
  /\ open_transactions l' = open_transactions l
  /\ peer_nodes l' = peer_nodes l
  /\ public_key l' = public_key l
  /\ node_id l' = node_id l
  /\ resolve_conflicts l' = false.
Proof.
  intros Hfalse l'. subst l'.
  destruct (resolve_outcome get l) as (Hflag & Hp & Hk & Hcase).
  destruct Hcase as [(_ & Hc & Ho & _)|(Htrue & _)]; [|congruence].
  repeat split; try done.
  unfold resolve. destruct (fold_left _ _ _) as [w r]. simpl.
  unfold save_data. by destruct r, (writable _).
Qed.

(** *** Transaction admission *)

Lemma relay_transaction_false post tx nodes :
  relay_transaction post tx nodes = false <->
  exists node status_code,
    node ∈ nodes /\ post node tx = Status status_code
    /\ (status_code = 400 \/ status_code = 500)%Z.
Proof.
  induction nodes as [|node nodes IH]; simpl.
  - split; [done|]. intros (n & c & Hin & _). by apply elem_of_nil in Hin.
  - destruct (post node tx) as [code|] eqn:Hpost.
    + destruct ((code =? 400)%Z || (code =? 500)%Z) eqn:Hcode.
      * split; [|done]. intros _. exists node, code.
        split; [by left|]. split; [done|]. lia.
      * rewrite IH. split.
        -- intros (n & c & Hin & Hp & Hc). exists n, c. split; [by right | done].
        -- intros (n & c & [->|Hin]%elem_of_cons & Hp & Hc).
           ++ rewrite Hpost in Hp. injection Hp as ->. lia.
           ++ by exists n, c.
    + rewrite IH. split.
      * intros (n & c & Hin & Hp & Hc). exists n, c. split; [by right | done].
      * intros (n & c & [->|Hin]%elem_of_cons & Hp & Hc); [congruence|].
        by exists n, c.
Qed.

Lemma add_transaction_frame post r s sg a recv l :
  let l' := snd (add_transaction post r s sg a recv l) in
  chain l' = chain l /\ peer_nodes l' = peer_nodes l
  /\ public_key l' = public_key l
  /\ resolve_conflicts l' = resolve_conflicts l.
Proof.
  unfold add_transaction. destruct (verify_transaction _ _); [|done].
  destruct (negb recv); simpl;
    by rewrite save_data_chain, save_data_peer_nodes, save_data_public_key,
         save_data_resolve_conflicts.
Qed.


(** *** Indexes *)

Lemma chain_indexed_snoc c block :
  chain_indexed c -> index block = Z.of_nat (length c) ->
  chain_indexed (c ++ [block]).
Proof.
  intros Hc Hb i b Hi.
  destruct (decide (i < length c)) as [Hlt|Hge].
  - rewrite lookup_app_l in Hi by done. by apply Hc.
  - apply lookup_lt_Some in Hi as Hlen. rewrite length_app in Hlen.
    simpl in Hlen. assert (i = length c) as -> by lia.
    rewrite lookup_app_r, Nat.sub_diag in Hi by lia.
    simpl in Hi. by simplify_eq.
Qed.

Lemma genesis_indexed : chain_indexed [genesis_block].
Proof. intros [|i] b Hi; simpl in Hi; [by simplify_eq | done]. Qed.

Lemma run_indexed c l l' :
  indexed_input l c -> run c l = Return l' ->
  chain_indexed (chain l) -> chain_indexed (chain l').
Proof.
  intros Hin Hrun Hl. destruct c as [post r s sg a recv|fuel now post|block|get|node|node];
    simpl in Hrun.
  - injection Hrun as <-.
    by destruct (add_transaction_frame post r s sg a recv l) as (-> & _).
  - destruct (mine_block fuel now post l) as [[r l1]| |] eqn:Hm; [|done..].
    injection Hrun as ->.
    apply mine_block_returned in Hm as [[_ ->]|Hm]; [done|].
    destruct Hm as (key & last_block & proof & _ & _ & _ & _ & -> & _).
    by apply chain_indexed_snoc.
  - destruct (add_block block l) as [[r l1]| |] eqn:Hadd; [|done..].
    injection Hrun as ->. destruct r.
    + specialize (Hin l' Hadd). unfold add_block in Hadd.
      destruct (last_item (chain l)) as [last_block|]; [|done].
      destruct (negb _ || negb _); [done|]. injection Hadd as <-.
      rewrite save_data_chain. simpl. by apply chain_indexed_snoc.
    + unfold add_block in Hadd.
      destruct (last_item (chain l)) as [last_block|]; [|done].
      destruct (negb _ || negb _); [by injection Hadd as <-|done].
  - injection Hrun as <-.
    destruct (resolve_outcome get l) as (_ & _ & _ & Hcase).
    destruct Hcase as [(_ & -> & _)|(Htrue & Hcand & _)]; [done|].
    destruct Hcand as (node & node_chain & Hnode & Hget & Heq & _).
    rewrite Heq. apply (Hin node node_chain); try done.
    by apply elem_of_elements.
  - injection Hrun as <-. unfold add_peer_node. by rewrite save_data_chain.
  - injection Hrun as <-. unfold remove_peer_node. by rewrite save_data_chain.
Qed.

(** C6, as the code has it: the index of every block is its position
    in every state reached from construction, from the genesis block
    or from a snapshot whose chain is indexed by position, by calls of
    [add_transaction], [mine_block], [add_peer_node] and
    [remove_peer_node], and by calls of [add_block] and [resolve],
    provided every block that [add_block] accepts carries the length
    of the local chain as index and every chain that [resolve] adopts is
    indexed by position.  Blocks that are rejected and chains that are
    not adopted may carry any index. *)
Theorem reachable_indexed public_key node_id f w l0 l :
  Blockchain_init public_key node_id f w = Return l0 ->
  (forall s, f = FilePickled s -> chain_indexed (snap_chain s)) ->
  reachable indexed_input l0 l ->
  chain_indexed (chain l).
Proof.
  intros Hinit Hfile Hreach.
  induction Hreach as [|l c l' _ IH Hin Hrun]; [|by eapply run_indexed].
  unfold Blockchain_init, load_data in Hinit. simpl in Hinit.
  destruct f as [| | |s]; try (injection Hinit as <-; apply genesis_indexed).
  - done.
  - injection Hinit as <-. simpl. by apply Hfile.
Qed.

(** *** Invariants of every reachable state *)

(** The chain never becomes empty: the methods that read [chain[-1]] find
    a last block in every state reached from a chain that has one. *)
Lemma run_chain_nonempty c l l' :
  run c l = Return l' -> chain l ≠ [] -> chain l' ≠ [].
Proof.
  intros Hrun Hl.
  destruct c as [post r s sg a recv|fuel now post|block|get|node|node];
    simpl in Hrun.
  - injection Hrun as <-.
    by destruct (add_transaction_frame post r s sg a recv l) as (-> & _).
  - destruct (mine_block fuel now post l) as [[r l1]| |] eqn:Hm; [|done..].
    injection Hrun as ->.
    apply mine_block_returned in Hm as [[_ ->]|Hm]; [done|].
    destruct Hm as (key & last_block & proof & _ & _ & _ & _ & -> & _).
    by destruct (chain l).
  - unfold add_block in Hrun.
    destruct (last_item (chain l)) as [last_block|]; [|done].
    destruct (negb _ || negb _); injection Hrun as <-; [done|].
    rewrite save_data_chain. simpl. by destruct (chain l).
  - injection Hrun as <-.
    destruct (resolve_outcome get l) as (_ & _ & _ & Hcase).
    destruct Hcase as [(_ & -> & _)|(_ & _ & Hlt & _)]; [done|].
    intros Hnil. rewrite Hnil in Hlt. simpl in Hlt. lia.
  - injection Hrun as <-. unfold add_peer_node. by rewrite save_data_chain.
  - injection Hrun as <-. unfold remove_peer_node. by rewrite save_data_chain.
Qed.

Lemma reachable_chain_nonempty allowed l0 l :
  reachable allowed l0 l -> chain l0 ≠ [] -> chain l ≠ [].
Proof.
  induction 1 as [|l c l' _ IH _ Hrun]; [done|].
  intros Hl0. eapply run_chain_nonempty; eauto.
Qed.

(** Every call keeps the chain valid, the calls that take blocks from
    peers included. *)
Lemma run_linked c l l' :
  run c l = Return l' -> chain_linked (chain l) -> chain_linked (chain l').
Proof.
  intros Hrun Hl.
  destruct c as [post r s sg a recv|fuel now post|block|get|node|node];
    simpl in Hrun.
  - injection Hrun as <-.
    by destruct (add_transaction_frame post r s sg a recv l) as (-> & _).
  - destruct (mine_block fuel now post l) as [[r l1]| |] eqn:Hm; [|done..].
    injection Hrun as ->. by eapply mine_block_linked.
  - unfold add_block in Hrun.
    destruct (last_item (chain l)) as [last_block|] eqn:Hlast; [|done].
    destruct (valid_proof _ _ _) eqn:Hproof; simpl in Hrun;
      [|by injection Hrun as <-].
    destruct (String.eqb_spec (hash_block last_block) (d_previous_hash block))
      as [Hhash|Hhash]; simpl in Hrun; injection Hrun as <-; [|done].
    rewrite save_data_chain. simpl. by eapply chain_linked_snoc.
  - injection Hrun as <-.
    destruct (resolve_outcome get l) as (_ & _ & _ & Hcase).
    destruct Hcase as [(_ & -> & _)|(_ & Hcand & _)]; [done|].
    destruct Hcand as (node & node_chain & _ & _ & _ & Hv).
    by apply verify_chain_linked.
  - injection Hrun as <-. unfold add_peer_node. by rewrite save_data_chain.
  - injection Hrun as <-. unfold remove_peer_node. by rewrite save_data_chain.
Qed.

Lemma reachable_linked allowed l0 l :
  reachable allowed l0 l -> chain_linked (chain l0) -> chain_linked (chain l).
Proof.
  induction 1 as [|l c l' _ IH _ Hrun]; [done|].
  intros Hl0. eapply run_linked; eauto.
Qed.

(** With a key, a last block, signatures that verify and fuel that covers
    a valid proof, [mine_block] returns and the chain has grown by the
    new block. *)
Lemma mine_block_appends fuel now post l key last_block valid :
  public_key l = Some key ->
  last_item (chain l) = Some last_block ->
  forallb Wallet_verify_transaction (open_transactions l) = true ->
  (0 <= valid)%Z ->
  valid_proof (open_transactions l) (hash_block last_block) valid = true ->
  Z.to_nat valid < fuel ->
  exists r l' block,
    mine_block fuel now post l = Return (r, l')
    /\ chain l' = chain l ++ [block]
    /\ index block = Z.of_nat (length (chain l))
    /\ open_transactions l' = [].
Proof.
  intros Hkey Hlast Hall H0 Hv Hfuel.
  destruct (proof_of_work_returns fuel l last_block valid) as (proof & Hpow & _);
    try done.
  unfold mine_block. rewrite Hkey, Hlast, Hpow, Hall. simpl.
  match goal with
  | |- context [broadcast_block ?p ?b ?n ?s] =>
      pose proof (broadcast_block_frame p b n s) as (Hc & Ho & _);
      destruct (broadcast_block p b n s) as [[] l4]; simpl in *
  end.
  all: eexists _, l4, _; split; [done|]; rewrite Hc, Ho, save_data_chain,
         save_data_open_transactions; done.
Qed.

(** ** Further properties *)

(** *** Persistence *)

Lemma save_data_in_sync l : writable l = true -> in_sync (save_data l).
Proof. unfold save_data, in_sync. by intros ->. Qed.

Lemma broadcast_block_disk post converted_block nodes : forall l,
  let l' := snd (broadcast_block post converted_block nodes l) in
  file l' = file l /\ writable l' = writable l /\ node_id l' = node_id l.
Proof.
  induction nodes as [|node rest IH]; intros l; simpl; [done|].
  destruct (post node converted_block) as [code|]; [|apply IH].
  destruct ((code =? 400)%Z || (code =? 500)%Z); simpl; [done|].
  destruct (code =? 409)%Z; [exact (IH (set_resolve_conflicts true l)) | apply IH].
Qed.

Lemma save_data_writable l : writable (save_data l) = writable l.
Proof. unfold save_data. by destruct (writable l) eqn:E. Qed.

Lemma run_writable c l l' : run c l = Return l' -> writable l' = writable l.
Proof.
  destruct c as [post r s sg a recv|fuel now post|block|get|node|node];
    simpl; intros Hrun.
  - injection Hrun as <-. unfold add_transaction.
    destruct (verify_transaction _ _); [|done].
    destruct (negb recv); simpl; by rewrite save_data_writable.
  - unfold mine_block in Hrun.
    destruct (public_key l); [|by injection Hrun as <-].
    destruct (last_item (chain l)); [|done].
    destruct (proof_of_work fuel l); [|done..].
    destruct (negb _); [by injection Hrun as <-|].
    match type of Hrun with
    | context [broadcast_block ?p ?b ?n ?s] =>
        pose proof (broadcast_block_disk p b n s) as (_ & Hw & _);
        destruct (broadcast_block p b n s) as [[] l4]; simpl in *;
        injection Hrun as <-; by rewrite Hw, save_data_writable
    end.
  - unfold add_block in Hrun. destruct (last_item (chain l)); [|done].
    destruct (negb _ || negb _); injection Hrun as <-; [done|].
    by rewrite save_data_writable.
  - injection Hrun as <-. unfold resolve.
    destruct (fold_left _ _ _) as [winner replace]. simpl.
    rewrite save_data_writable. by destruct replace.
  - injection Hrun as <-. unfold add_peer_node. by rewrite save_data_writable.
  - injection Hrun as <-. unfold remove_peer_node. by rewrite save_data_writable.
Qed.

(** On a node that can write its file, a call that returns has either
    left the chain, the open transactions, the peers and the file as
    they were, or has written all three to the file as they are after
    the call. *)
Lemma run_persists c l l' :
  writable l = true -> run c l = Return l' ->
  (chain l' = chain l /\ open_transactions l' = open_transactions l
   /\ peer_nodes l' = peer_nodes l /\ file l' = file l)
  \/ in_sync l'.
Proof.
  intros Hw.
  destruct c as [post r s sg a recv|fuel now post|block|get|node|node];
    simpl; intros Hrun.
  - injection Hrun as <-. unfold add_transaction.
    destruct (verify_transaction _ _); [|by left]. right.
    destruct (negb recv); simpl; by apply save_data_in_sync.
  - unfold mine_block in Hrun.
    destruct (public_key l); [|injection Hrun as <-; by left].
    destruct (last_item (chain l)); [|done].
    destruct (proof_of_work fuel l); [|done..].
    destruct (negb _); [injection Hrun as <-; by left|]. right.
    match type of Hrun with
    | context [broadcast_block ?p ?b ?n (save_data ?inner)] =>
        pose proof (broadcast_block_disk p b n (save_data inner)) as (Hf & _ & _);
        pose proof (broadcast_block_frame p b n (save_data inner))
          as (Hc & Ho & Hp & _);
        pose proof (save_data_in_sync inner Hw) as Hsync;
        destruct (broadcast_block p b n (save_data inner)) as [[] l4];
        simpl in Hf, Hc, Ho, Hp; injection Hrun as <-
    end.
    all: unfold in_sync, persisted in *; by rewrite Hf, Hc, Ho, Hp.
  - unfold add_block in Hrun. destruct (last_item (chain l)); [|done].
    destruct (negb _ || negb _); injection Hrun as <-; [by left|].
    right. by apply save_data_in_sync.
  - injection Hrun as <-. right. unfold resolve.
    destruct (fold_left _ _ _) as [winner replace]. simpl.
    apply save_data_in_sync. by destruct replace.
  - injection Hrun as <-. right. by apply save_data_in_sync.
  - injection Hrun as <-. right. by apply save_data_in_sync.
Qed.

Lemma recoverable_init l public_key' node_id' w' :
  recoverable l ->
  exists l', Blockchain_init public_key' node_id' (file l) w' = Return l'
             /\ chain l' = chain l
             /\ open_transactions l' = open_transactions l
             /\ peer_nodes l' = peer_nodes l
             /\ public_key l' = public_key'
             /\ resolve_conflicts l' = false.
Proof.
  unfold recoverable, Blockchain_init, load_data. simpl.
  destruct (file l) as [| | |s]; try done.
  - intros (-> & -> & ->). eexists. split; [done|]. by simpl.
  - intros (-> & -> & ->). eexists. split; [done|]. by simpl.
  - intros ->. eexists. split; [done|]. by simpl.
Qed.

Lemma init_recoverable public_key node_id f w l0 :
  Blockchain_init public_key node_id f w = Return l0 -> recoverable l0.
Proof.
  unfold recoverable, Blockchain_init, load_data. simpl.
  destruct f as [| | |s]; try done; intros [= <-]; simpl; try done.
  by destruct s.
Qed.

Lemma run_recoverable c l l' :
  writable l = true -> run c l = Return l' -> recoverable l -> recoverable l'.
Proof.
  intros Hw Hrun Hl.
  destruct (run_persists c l l' Hw Hrun) as [(Hc & Ho & Hp & Hf)|Hsync].
  - unfold recoverable, persisted in *. by rewrite Hf, Hc, Ho, Hp.
  - unfold recoverable. by rewrite Hsync.
Qed.

(** X1: what [save_data] writes, the constructor reads back: a ledger
    built from the file that a node that can write has just saved has
    the chain, the open transactions and the peers of that node. *)
Theorem save_data_round_trip l public_key' node_id' w' :
  writable l = true ->
  exists l', Blockchain_init public_key' node_id' (file (save_data l)) w'
             = Return l'
             /\ chain l' = chain l
             /\ open_transactions l' = open_transactions l
             /\ peer_nodes l' = peer_nodes l.
Proof.
  intros Hw.
  destruct (recoverable_init (save_data l) public_key' node_id' w')
    as (l' & Hinit & Hc & Ho & Hp & _).
  { unfold recoverable. by rewrite (save_data_in_sync l Hw). }
  exists l'. split; [done|].
  by rewrite Hc, Ho, Hp, save_data_chain, save_data_open_transactions,
       save_data_peer_nodes.
Qed.

(** X2: a node that can write its file loses nothing at a restart: after
    any calls, a constructor run on the file as it is then builds a
    ledger with the same chain, open transactions and peers;
    [resolve_conflicts], which is not saved, is [False] again. *)
Theorem restart_recovers public_key node_id f l0 l public_key' node_id' w' :
  Blockchain_init public_key node_id f true = Return l0 ->
  reachable any_input l0 l ->
  exists l', Blockchain_init public_key' node_id' (file l) w' = Return l'
             /\ chain l' = chain l
             /\ open_transactions l' = open_transactions l
             /\ peer_nodes l' = peer_nodes l
             /\ resolve_conflicts l' = false.
Proof.
  intros Hinit Hreach.
  assert (writable l = true /\ recoverable l) as [_ Hrec].
  { induction Hreach as [|l c l' _ [IHw IHr] _ Hrun].
    - split; [|by eapply init_recoverable].
      unfold Blockchain_init, load_data in Hinit. simpl in Hinit.
      destruct f; try done; by injection Hinit as <-.
    - split; [by rewrite (run_writable c l l') | by eapply run_recoverable]. }
  destruct (recoverable_init l public_key' node_id' w' Hrec)
    as (l' & ? & ? & ? & ? & _ & ?).
  by exists l'.
Qed.

(** *** The chain keeps a last block *)

Lemma run_raises c l e : run c l = Raise e -> chain l = [].
Proof.
  destruct c as [post r s sg a recv|fuel now post|block|get|node|node];
    simpl; try done.
  - unfold mine_block, proof_of_work. destruct (public_key l); [|done].
    destruct (last_item (chain l)) as [last_block|] eqn:Hlast.
    + destruct (proof_search _ _ _ _); [|done].
      destruct (negb _); [done|]. by destruct (broadcast_block _ _ _ _) as [[] ?].
    + intros _. unfold last_item in Hlast. by apply last_None in Hlast.
  - unfold add_block.
    destruct (last_item (chain l)) as [last_block|] eqn:Hlast.
    + by destruct (negb _ || negb _).
    + intros _. unfold last_item in Hlast. by apply last_None in Hlast.
Qed.

(** X3: the chain never becomes empty: in every ledger reached from the
    constructor, from the genesis block or from a saved chain that has
    a block, the chain has a last block, so that [chain[-1]] in
    [mine_block], [proof_of_work] and [add_block] does not raise
    [IndexError]. *)
Theorem reachable_last_block public_key node_id f w l0 l :
  Blockchain_init public_key node_id f w = Return l0 ->
  (forall s, f = FilePickled s -> snap_chain s ≠ []) ->
  reachable any_input l0 l ->
  (exists last_block, last_item (chain l) = Some last_block)
  /\ get_last_blockchain_value l = last_item (chain l)
  /\ forall c, run c l ≠ Raise IndexError.
Proof.
  intros Hinit Hfile Hreach.
  assert (chain l ≠ []) as Hl.
  { eapply reachable_chain_nonempty; [exact Hreach|].
    unfold Blockchain_init, load_data in Hinit. simpl in Hinit.
    destruct f as [| | |s]; try done; injection Hinit as <-; simpl; try done.
    by apply Hfile. }
  split; [|split].
  - unfold last_item. destruct (last (chain l)) as [b|] eqn:Hlast; [by exists b|].
    by apply last_None in Hlast.
  - unfold get_last_blockchain_value. case_bool_decide as Hlen; [|done].
    by destruct (chain l).
  - intros c Hraise. by apply run_raises in Hraise.
Qed.

(** *** The chain stays valid and only grows *)

(** X4: every call keeps a valid chain valid: if the chain the
    constructor starts from passes [verify_chain], so does the chain
    after any calls, blocks and chains taken from peers included. *)
Theorem reachable_verifies public_key node_id f w l0 l :
  Blockchain_init public_key node_id f w = Return l0 ->
  (forall s, f = FilePickled s -> verify_chain (snap_chain s) = true) ->
  reachable any_input l0 l ->
  verify_chain (chain l) = true.
Proof.
  intros Hinit Hfile Hreach. apply verify_chain_linked.
  eapply reachable_linked; [exact Hreach|]. apply verify_chain_linked.
  unfold Blockchain_init, load_data in Hinit. simpl in Hinit.
  destruct f as [| | |s]; try done; injection Hinit as <-; simpl; try done.
  by apply Hfile.
Qed.

(** X5: the chain is append-only but for [resolve]: every other call
    that returns leaves the old chain as a prefix of the new one, with at
    most one block more; [resolve] never leaves a shorter chain. *)
Theorem run_chain_grows c l l' :
  run c l = Return l' ->
  length (chain l) <= length (chain l')
  /\ match c with
     | Resolve _ => True
     | _ => (chain l `prefix_of` chain l')
            /\ length (chain l') <= S (length (chain l))
     end.
Proof.
  destruct c as [post r s sg a recv|fuel now post|block|get|node|node];
    simpl; intros Hrun.
  - injection Hrun as <-.
    destruct (add_transaction_frame post r s sg a recv l) as (-> & _).
    split; [done|]. split; [done | lia].
  - destruct (mine_block fuel now post l) as [[r l1]| |] eqn:Hm; [|done..].
    injection Hrun as ->.
    apply mine_block_returned in Hm as [[_ ->]|Hm]; [by repeat split; try lia|].
    destruct Hm as (key & last_block & proof & _ & _ & _ & _ & -> & _).
    rewrite length_app. simpl. split; [lia|]. split; [|lia].
    by apply prefix_app_r.
  - unfold add_block in Hrun.
    destruct (last_item (chain l)) as [last_block|]; [|done].
    destruct (negb _ || negb _); injection Hrun as <-;
      [by repeat split; try lia|].
    rewrite save_data_chain. simpl. rewrite length_app. simpl.
    split; [lia|]. split; [|lia]. by apply prefix_app_r.
  - injection Hrun as <-. split; [|done].
    destruct (resolve_outcome get l) as (_ & _ & _ & Hcase).
    destruct Hcase as [(_ & -> & _)|(_ & _ & Hlt & _)]; lia.
  - injection Hrun as <-. unfold add_peer_node. rewrite save_data_chain.
    simpl. split; [done|]. split; [done | lia].
  - injection Hrun as <-. unfold remove_peer_node. rewrite save_data_chain.
    simpl. split; [done|]. split; [done | lia].
Qed.

(** *** Peers *)

(** X6: [add_peer_node] and [remove_peer_node] are the insertion and the
    removal of a set: adding a peer twice is adding it once, removing a
    peer that is not there changes no peer, removing a peer just added
    gives the peers without it, and neither touches the chain or the
    open transactions. *)
Theorem peer_nodes_add_remove node l :
  add_peer_node node (add_peer_node node l) = add_peer_node node l
  /\ (node ∈ peer_nodes (add_peer_node node l))
  /\ (node ∉ peer_nodes (remove_peer_node node l))
  /\ peer_nodes (remove_peer_node node (add_peer_node node l))
     = peer_nodes l ∖ {[node]}
  /\ (node ∉ peer_nodes l ->
      peer_nodes (remove_peer_node node l) = peer_nodes l)
  /\ chain (add_peer_node node l) = chain l
  /\ chain (remove_peer_node node l) = chain l
  /\ open_transactions (add_peer_node node l) = open_transactions l
  /\ open_transactions (remove_peer_node node l) = open_transactions l.
Proof.
  clear sha256_hexdigest json_dumps to_ordered_dict valid_proof
        Wallet_verify_transaction.
  unfold add_peer_node, remove_peer_node.
  rewrite !save_data_peer_nodes, !save_data_chain, !save_data_open_transactions.
  simpl. repeat split; try set_solver.
  unfold save_data, set_peer_nodes, set_file. simpl.
  destruct (writable l); simpl.
  - by replace ({[node]} ∪ ({[node]} ∪ peer_nodes l))
      with ({[node]} ∪ peer_nodes l) by set_solver.
  - by replace ({[node]} ∪ ({[node]} ∪ peer_nodes l))
      with ({[node]} ∪ peer_nodes l) by set_solver.
Qed.

(** *** The proof search *)

Lemma proof_search_least fuel txs last_hash : forall start found,
  proof_search fuel txs last_hash start = Some found ->
  Z.to_nat (found - start) < fuel
  /\ forall q, (start <= q < found)%Z -> valid_proof txs last_hash q = false.
Proof.
  induction fuel as [|fuel IH]; intros start found; simpl; [done|].
  destruct (valid_proof txs last_hash start) eqn:Hv.
  - intros [= <-]. split; [lia|]. intros q Hq. lia.
  - intros H. pose proof (proof_search_valid _ _ _ _ _ H) as [_ Hle].
    apply IH in H as [Hfuel Hleast]. split; [lia|].
    intros q Hq. destruct (decide (q = start)) as [->|Hne]; [done|].
    apply Hleast. lia.
Qed.

Lemma proof_search_mono fuel txs last_hash : forall fuel' start found,
  proof_search fuel txs last_hash start = Some found -> fuel <= fuel' ->
  proof_search fuel' txs last_hash start = Some found.
Proof.
  induction fuel as [|fuel IH]; intros fuel' start found; simpl; [done|].
  intros H Hle. destruct fuel' as [|fuel']; [lia|]. simpl.
  destruct (valid_proof txs last_hash start); [done|].
  apply IH; [done | lia].
Qed.

(** X7: the proof [proof_of_work] returns is the least valid one: it is
    valid for the open transactions and the hash of the last block, no
    number from 0 up to it is, and the search returns it whatever
    further fuel it is given. *)
Theorem proof_of_work_least fuel l proof :
  proof_of_work fuel l = Return proof ->
  exists last_block,
    last_item (chain l) = Some last_block
    /\ (0 <= proof)%Z
    /\ valid_proof (open_transactions l) (hash_block last_block) proof = true
    /\ (forall q, (0 <= q < proof)%Z ->
          valid_proof (open_transactions l) (hash_block last_block) q = false)
    /\ forall fuel', fuel <= fuel' -> proof_of_work fuel' l = Return proof.
Proof.
  unfold proof_of_work.
  destruct (last_item (chain l)) as [last_block|]; [|done].
  destruct (proof_search _ _ _ _) as [found|] eqn:Hs; [|done].
  intros [= ->]. exists last_block. split; [done|].
  pose proof (proof_search_valid _ _ _ _ _ Hs) as [Hv H0].
  pose proof (proof_search_least _ _ _ _ _ Hs) as [_ Hleast].
  repeat split; try done.
  intros fuel' Hle. by rewrite (proof_search_mono _ _ _ _ _ _ Hs Hle).
Qed.

(** *** The broadcast of a mined block *)

Lemma broadcast_block_false post converted_block nodes : forall l,
  fst (broadcast_block post converted_block nodes l) = false <->
  exists node status_code,
    node ∈ nodes /\ post node converted_block = Status status_code
    /\ (status_code = 400 \/ status_code = 500)%Z.
Proof.
  induction nodes as [|node nodes IH]; intros l; simpl.
  - split; [done|]. intros (n & c & Hin & _). by apply elem_of_nil in Hin.
  - destruct (post node converted_block) as [code|] eqn:Hpost.
    + destruct ((code =? 400)%Z || (code =? 500)%Z) eqn:Hcode; simpl.
      * split; [|done]. intros _. exists node, code.
        split; [by left|]. split; [done|]. lia.
      * rewrite IH. split.
        -- intros (n & c & Hin & Hp & Hc). exists n, c. split; [by right | done].
        -- intros (n & c & [->|Hin]%elem_of_cons & Hp & Hc).
           ++ rewrite Hpost in Hp. injection Hp as ->. lia.
           ++ by exists n, c.
    + rewrite IH. split.
      * intros (n & c & Hin & Hp & Hc). exists n, c. split; [by right | done].
      * intros (n & c & [->|Hin]%elem_of_cons & Hp & Hc); [congruence|].
        by exists n, c.
Qed.

Lemma broadcast_block_flag post converted_block nodes : forall l,
  fst (broadcast_block post converted_block nodes l) = true ->
  (resolve_conflicts (snd (broadcast_block post converted_block nodes l)) = true
   <-> resolve_conflicts l = true
       \/ exists node, node ∈ nodes /\ post node converted_block = Status 409).
Proof.
  induction nodes as [|node nodes IH]; intros l; simpl.
  - intros _. split; [by left|]. intros [?|(n & Hin & _)]; [done|].
    by apply elem_of_nil in Hin.
  - destruct (post node converted_block) as [code|] eqn:Hpost.
    + destruct ((code =? 400)%Z || (code =? 500)%Z) eqn:Hcode; simpl; [done|].
      intros Hfst. rewrite IH by done. clear IH Hfst.
      destruct (code =? 409)%Z eqn:H409; simpl.
      * apply Z.eqb_eq in H409 as ->. split; [|by left].
        intros _. right. exists node. split; [by left | done].
      * apply Z.eqb_neq in H409. split.
        -- intros [?|(n & Hin & Hp)]; [by left|]. right. exists n.
           split; [by right | done].
        -- intros [?|(n & [->|Hin]%elem_of_cons & Hp)]; [by left| |].
           ++ rewrite Hpost in Hp. by injection Hp as ->.
           ++ right. by exists n.
    + intros Hfst. rewrite IH by done. split.
      * intros [?|(n & Hin & Hp)]; [by left|]. right. exists n.
        split; [by right | done].
      * intros [?|(n & [->|Hin]%elem_of_cons & Hp)]; [by left|congruence|].
        right. by exists n.
Qed.

(** X8: when [mine_block] returns [None] although the key is set and
    every open transaction passes the signature check, the block has been
    appended and the open transactions emptied all the same: a peer
    answered the broadcast of the block with status 400 or 500, and
    nothing is undone. *)
Theorem mine_block_declined fuel now post l l' key :
  mine_block fuel now post l = Return (None, l') ->
  public_key l = Some key ->
  forallb Wallet_verify_transaction (open_transactions l) = true ->
  exists block,
    chain l' = chain l ++ [block]
    /\ open_transactions l' = []
    /\ exists node status_code,
        node ∈ peer_nodes l
        /\ post node (dict_of_Block block) = Status status_code
        /\ (status_code = 400 \/ status_code = 500)%Z.
Proof.
  unfold mine_block. intros Hm Hkey Hall. rewrite Hkey, Hall in Hm.
  destruct (last_item (chain l)) as [last_block|]; [|done].
  destruct (proof_of_work fuel l) as [proof| |]; [|done..]. simpl in Hm.
  match type of Hm with
  | context [broadcast_block ?p ?b ?n ?s] =>
      pose proof (broadcast_block_frame p b n s) as (Hc & Ho & _);
      pose proof (broadcast_block_false p b n s) as Hfalse;
      destruct (broadcast_block p b n s) as [[] l4]; simpl in *;
      [done | injection Hm as <-]
  end.
  eexists. rewrite Hc, Ho, save_data_chain, save_data_open_transactions. simpl.
  split; [done|]. split; [done|].
  destruct Hfalse as [Hfalse _].
  destruct Hfalse as (node & code & Hin & Hpost & Hcode); [done|].
  exists node, code. split; [|done].
  apply elem_of_elements in Hin. by rewrite save_data_peer_nodes in Hin.
Qed.

(** X9: after a call of [mine_block] that returns the block,
    [resolve_conflicts] is set iff it was set before or a peer answered
    the broadcast with status 409; [mine_block] never clears it. *)
Theorem mine_block_conflict fuel now post l block l' :
  mine_block fuel now post l = Return (Some block, l') ->
  (resolve_conflicts l' = true <->
   resolve_conflicts l = true
   \/ exists node, node ∈ peer_nodes l
                   /\ post node (dict_of_Block block) = Status 409).
Proof.
  unfold mine_block. intros Hm.
  destruct (public_key l) as [key|]; [|done].
  destruct (last_item (chain l)) as [last_block|]; [|done].
  destruct (proof_of_work fuel l) as [proof| |]; [|done..].
  destruct (negb _); [done|].
  match type of Hm with
  | context [broadcast_block ?p ?b ?n ?s] =>
      pose proof (broadcast_block_flag p b n s) as Hflag;
      destruct (broadcast_block p b n s) as [[] l4]; simpl in *;
      [injection Hm as <- <- | done]
  end.
  rewrite Hflag by done. rewrite save_data_resolve_conflicts. simpl.
  split; (intros [?|(node & Hin & Hpost)]; [by left | right; exists node]).
  - split; [|done]. apply elem_of_elements in Hin.
    by rewrite save_data_peer_nodes in Hin.
  - split; [|done]. apply elem_of_elements.
    by rewrite save_data_peer_nodes.
Qed.

(** *** What mined chains hold *)

(** X10: a chain built from the genesis block by [mine_block] alone, on
    a node with the public key [key], starts with the genesis block, has
    every block at its index, and every later block holds transactions
    that passed the signature check followed by one reward of 10 coins
    from ["MINING"] to [key]. *)
Theorem mined_blocks_rewarded key l :
  mined_by key l ->
  public_key l = Some key
  /\ exists blocks,
       chain l = genesis_block :: blocks
       /\ Forall (rewarded key) blocks
       /\ chain_indexed (chain l).
Proof.
  induction 1 as [l Hg Hk|fuel now post l r l' _ IH Hm|l l' _ IH Hc Hk].
  - split; [done|]. exists []. rewrite Hg. split; [done|].
    split; [constructor|]. apply genesis_indexed.
  - destruct IH as (Hkey & blocks & Hchain & Hall & Hidx).
    apply mine_block_returned in Hm as [[_ ->]|Hm]; [by eauto|].
    destruct Hm as (key' & last_block & proof & Hkey' & _ & _ & Hv & Hl'
                    & _ & _ & Hk' & _).
    rewrite Hkey in Hkey'. injection Hkey' as <-.
    split; [by rewrite Hk'|].
    rewrite Hl'. eexists (blocks ++ [_]). rewrite Hchain at 1.
    split; [done|]. split.
    + apply Forall_app. split; [done|]. constructor; [|constructor].
      by exists (open_transactions l).
    + by apply chain_indexed_snoc.
  - rewrite Hc, Hk. done.
Qed.

(** *** Resolving twice *)

(** X11: a second [resolve] on the same answers of the peers finds
    nothing to adopt: it returns [False] and keeps the chain and the open
    transactions the first one left. *)
Theorem resolve_twice get l :
  let l1 := snd (resolve get l) in
  fst (resolve get l1) = false
  /\ chain (snd (resolve get l1)) = chain l1
  /\ open_transactions (snd (resolve get l1)) = open_transactions l1.
Proof.
  intros l1. subst l1.
  destruct (resolve_outcome get l) as (_ & Hp & _ & Hcase).
  assert (forall c, candidate get (elements (peer_nodes l)) c ->
                    length c <= length (chain (snd (resolve get l)))) as Hmax.
  { destruct Hcase as [(_ & -> & _ & Hm)|(_ & _ & _ & Hm & _)]; done. }
  destruct (resolve_outcome get (snd (resolve get l))) as (_ & _ & _ & Hcase2).
  rewrite Hp in Hcase2.
  destruct Hcase2 as [(-> & Hc & Ho & _)|(_ & Hcand & Hlt & _)]; [done|].
  apply Hmax in Hcand. lia.
Qed.

(** *** The last block *)

(** X12: [get_last_blockchain_value] returns [None] on an empty chain,
    where [chain[-1]] would raise, and otherwise the last block: after
    [mine_block] has returned a block it is that block. *)
Theorem get_last_blockchain_value_mined fuel now post l block l' :
  mine_block fuel now post l = Return (Some block, l') ->
  get_last_blockchain_value l' = Some block
  /\ (forall l0, chain l0 = [] -> get_last_blockchain_value l0 = None)
  /\ (forall l0 c b, chain l0 = c ++ [b] ->
        get_last_blockchain_value l0 = Some b).
Proof.
  intros Hm.
  assert (forall l0 c b, chain l0 = c ++ [b] ->
            get_last_blockchain_value l0 = Some b) as Hlast.
  { intros l0 c b Hc. unfold get_last_blockchain_value, last_item.
    rewrite Hc, length_app, last_snoc. simpl.
    case_bool_decide; [lia | done]. }
  split; [|split; [|done]].
  - apply mine_block_returned in Hm as [[? _]|Hm]; [done|].
    destruct Hm as (key & last_block & proof & _ & _ & _ & _ & Hc & _ & _ & _ & Hr).
    destruct Hr as [?|[= ->]]; [done|]. by eapply Hlast.
  - intros l0 Hc. unfold get_last_blockchain_value. by rewrite Hc.
Qed.

(** *** Balances along the calls *)

Lemma get_balance_sums l participant :
  get_balance l (Some participant)
  = Some (amount_received_in participant (concat (map transactions (chain l)))
          - (amount_sent_in participant (concat (map transactions (chain l)))
             + amount_sent_in participant (open_transactions l)))%Z.
Proof.
  unfold get_balance. f_equal.
  rewrite fold_left_app, reduce_sent, reduce_received. simpl.
  rewrite reduce_step, sum_sent. lia.
Qed.

(** X13: [add_transaction] returns [True] iff the transaction passes
    [verify_transaction] and, unless the call relays a transaction
    received from a peer, no peer answers the broadcast with status 400
    or 500; peers that cannot be reached do not count. *)
Theorem add_transaction_true post recipient_arg sender_arg signature_arg
        amount_arg is_receiving l :
  let transaction :=
    mkTransaction sender_arg recipient_arg signature_arg amount_arg in
  fst (add_transaction post recipient_arg sender_arg signature_arg
                       amount_arg is_receiving l) = true
  <-> verify_transaction transaction (get_balance l) = true
      /\ (is_receiving = true
          \/ forall node status_code,
               node ∈ peer_nodes l ->
               post node (dict_of_Transaction transaction) = Status status_code ->
               status_code ≠ 400%Z /\ status_code ≠ 500%Z).
Proof.
  intros transaction. unfold add_transaction. fold transaction.
  destruct (verify_transaction transaction (get_balance l)); simpl;
    [|split; [done | by intros [? _]]].
  destruct is_receiving; simpl; [split; [by split; [|left] | done]|].
  rewrite save_data_peer_nodes. simpl.
  destruct (relay_transaction post _ (elements (peer_nodes l))) eqn:Hrelay.
  - split; [|done]. intros _. split; [done|]. right.
    intros node code Hin Hpost.
    apply not_false_iff_true in Hrelay.
    rewrite relay_transaction_false in Hrelay.
    split; intros ->; apply Hrelay; exists node; eexists;
      (split; [by apply elem_of_elements|]); (split; [exact Hpost|]); lia.
  - split; [done|]. intros [_ [?|Hok]]; [done|].
    apply relay_transaction_false in Hrelay
      as (node & code & Hin%elem_of_elements & Hpost & Hcode).
    destruct (Hok node code Hin Hpost). lia.
Qed.

(** X14: a transaction that passes [verify_transaction] is appended to
    the open transactions, whatever the peers answer, and is charged at
    once: the balance of its sender goes down by the amount, and no other
    balance changes; the recipient is not credited yet. *)
Theorem add_transaction_admitted post recipient_arg sender_arg signature_arg
        amount_arg is_receiving l :
  let transaction :=
    mkTransaction sender_arg recipient_arg signature_arg amount_arg in
  let l' := snd (add_transaction post recipient_arg sender_arg signature_arg
                                 amount_arg is_receiving l) in
  verify_transaction transaction (get_balance l) = true ->
  open_transactions l' = open_transactions l ++ [transaction]
  /\ forall participant,
       exists balance,
         get_balance l (Some participant) = Some balance
         /\ get_balance l' (Some participant)
            = Some (balance - if decide (sender_arg = participant)
                              then amount_arg else 0)%Z.
Proof.
  intros transaction l' Hv.
  assert (open_transactions l' = open_transactions l ++ [transaction]
          /\ chain l' = chain l) as [Ho Hc].
  { subst l'. unfold add_transaction. fold transaction. rewrite Hv.
    destruct (negb is_receiving); simpl;
      by rewrite save_data_open_transactions, save_data_chain. }
  split; [done|]. intros participant. eexists. split; [apply get_balance_sums|].
  rewrite get_balance_sums, Ho, Hc, amount_sent_in_app. simpl.
  f_equal. destruct (decide (sender_arg = participant)); lia.
Qed.

Lemma concat_map_snoc (blocks : list Block) block :
  concat (map transactions (blocks ++ [block]))
  = concat (map transactions blocks) ++ transactions block.
Proof. by rewrite map_app, concat_app; simpl; rewrite app_nil_r. Qed.

(** X15: mining settles the open transactions: when [mine_block] returns
    the block, every participant has, on top of the balance before, what
    the open transactions sent to the participant; the miner has 10
    coins more, and ["MINING"], the sender of the reward, 10 less.  No
    sender is charged a second time. *)
Theorem mine_block_balance fuel now post l block l' key participant :
  mine_block fuel now post l = Return (Some block, l') ->
  public_key l = Some key ->
  exists balance,
    get_balance l (Some participant) = Some balance
    /\ get_balance l' (Some participant)
       = Some (balance
               + amount_received_in participant (open_transactions l)
               + (if decide (key = participant) then 10 else 0)
               - (if decide ("MINING" = participant) then 10 else 0))%Z.
Proof.
  intros Hm Hkey.
  apply mine_block_returned in Hm as [[? _]|Hm]; [done|].
  destruct Hm as (key' & last_block & proof & Hkey' & _ & _ & _ & Hc & Ho & _).
  rewrite Hkey in Hkey'. injection Hkey' as <-.
  eexists. split; [apply get_balance_sums|].
  rewrite get_balance_sums, Hc, Ho, concat_map_snoc. simpl.
  rewrite !amount_sent_in_app, !amount_received_in_app. simpl.
  unfold MINING_REWARD. f_equal.
  destruct (decide (key = participant)), (decide ("MINING" = participant)); lia.
Qed.

(** *** The file never decides what a call does *)

Local Ltac same_attrs :=
  unfold same_attributes in *; simpl in *;
  repeat match goal with H : _ /\ _ |- _ => destruct H end;
  repeat split; congruence.

Lemma save_data_same_attributes l1 l2 :
  same_attributes l1 l2 -> same_attributes (save_data l1) (save_data l2).
Proof.
  unfold same_attributes.
  by rewrite !save_data_chain, !save_data_open_transactions,
       !save_data_public_key, !save_data_peer_nodes,
       !save_data_resolve_conflicts; unfold save_data;
     destruct (writable l1), (writable l2).
Qed.

Lemma get_balance_same_attributes l1 l2 :
  same_attributes l1 l2 -> get_balance l1 = get_balance l2.
Proof.
  destruct l1, l2. unfold same_attributes. simpl.
  intros (-> & -> & -> & _). reflexivity.
Qed.

Lemma broadcast_block_same_attributes post converted_block nodes :
  forall l1 l2,
    same_attributes l1 l2 ->
    fst (broadcast_block post converted_block nodes l1)
    = fst (broadcast_block post converted_block nodes l2)
    /\ same_attributes (snd (broadcast_block post converted_block nodes l1))
                       (snd (broadcast_block post converted_block nodes l2)).
Proof.
  induction nodes as [|node rest IH]; intros l1 l2 Hsame; simpl; [done|].
  destruct (post node converted_block) as [code|]; [|by apply IH].
  destruct ((code =? 400)%Z || (code =? 500)%Z); simpl; [done|].
  destruct (code =? 409)%Z; apply IH; [|done].
  same_attrs.
Qed.

Lemma add_transaction_same_attributes post r s sg a recv l1 l2 :
  same_attributes l1 l2 ->
  fst (add_transaction post r s sg a recv l1)
  = fst (add_transaction post r s sg a recv l2)
  /\ same_attributes (snd (add_transaction post r s sg a recv l1))
                     (snd (add_transaction post r s sg a recv l2)).
Proof.
  intros Hsame. unfold add_transaction.
  rewrite (get_balance_same_attributes l1 l2 Hsame).
  destruct (verify_transaction _ _); [|done].
  assert (same_attributes
            (save_data (set_open_transactions
               (open_transactions l1 ++ [mkTransaction s r sg a]) l1))
            (save_data (set_open_transactions
               (open_transactions l2 ++ [mkTransaction s r sg a]) l2))) as Hs.
  { apply save_data_same_attributes. same_attrs. }
  destruct (negb recv); simpl; [|done]. split; [|done].
  destruct Hs as (_ & _ & _ & -> & _). done.
Qed.

Lemma mine_block_same_attributes fuel now post l1 l2 :
  same_attributes l1 l2 ->
  match mine_block fuel now post l1, mine_block fuel now post l2 with
  | Return (r1, l1'), Return (r2, l2') => r1 = r2 /\ same_attributes l1' l2'
  | Raise e1, Raise e2 => e1 = e2
  | OutOfFuel, OutOfFuel => True
  | _, _ => False
  end.
Proof.
  intros Hsame. pose proof Hsame as (Hc & Ho & Hk & Hp & Hn & Hf).
  unfold mine_block, proof_of_work. rewrite Hc, Ho, Hk.
  destruct (public_key l2) as [key|]; [|done].
  destruct (last_item (chain l2)) as [last_block|]; [|done].
  destruct (proof_search _ _ _ _) as [proof|]; [|done].
  destruct (negb _); [done|].
  match goal with
  | |- context [set_chain ?c l1] =>
      set (s1 := save_data (set_open_transactions [] (set_chain c l1)));
      set (s2 := save_data (set_open_transactions [] (set_chain c l2)))
  end.
  assert (same_attributes s1 s2) as Hs.
  { apply save_data_same_attributes. same_attrs. }
  pose proof Hs as (_ & _ & _ & Hp' & _). rewrite Hp'.
  match goal with
  | |- context [broadcast_block ?p ?b ?n s1] =>
      pose proof (broadcast_block_same_attributes p b n s1 s2 Hs) as [Hfst Hsnd];
      destruct (broadcast_block p b n s1) as [[] ?],
               (broadcast_block p b n s2) as [[] ?]
  end; simpl in *; done.
Qed.

Lemma add_block_same_attributes block l1 l2 :
  same_attributes l1 l2 ->
  match add_block block l1, add_block block l2 with
  | Return (r1, l1'), Return (r2, l2') => r1 = r2 /\ same_attributes l1' l2'
  | Raise e1, Raise e2 => e1 = e2
  | OutOfFuel, OutOfFuel => True
  | _, _ => False
  end.
Proof.
  intros Hsame. pose proof Hsame as (Hc & Ho & Hk & Hp & Hn & Hf).
  unfold add_block. rewrite Hc.
  destruct (last_item (chain l2)) as [last_block|]; [|done].
  destruct (negb _ || negb _); [done|]. split; [done|].
  apply save_data_same_attributes. same_attrs.
Qed.

Lemma resolve_same_attributes get l1 l2 :
  same_attributes l1 l2 ->
  fst (resolve get l1) = fst (resolve get l2)
  /\ same_attributes (snd (resolve get l1)) (snd (resolve get l2)).
Proof.
  intros Hsame. pose proof Hsame as (Hc & Ho & Hk & Hp & Hn & Hf).
  unfold resolve. rewrite Hc, Hp.
  destruct (fold_left _ _ _) as [winner replace]. simpl. split; [done|].
  apply save_data_same_attributes. destruct replace; same_attrs.
Qed.

(** X16: what a call does to the ledger does not depend on the snapshot
    file: on two ledgers that differ only in the file, or in whether it
    can be written, a call returns on both or on neither, raises the same
    exception, and leaves ledgers that again differ only in the file.  A
    write that fails changes nothing else. *)
Theorem run_ignores_file c l1 l2 :
  same_attributes l1 l2 ->
  match run c l1, run c l2 with
  | Return l1', Return l2' => same_attributes l1' l2'
  | Raise e1, Raise e2 => e1 = e2
  | OutOfFuel, OutOfFuel => True
  | _, _ => False
  end.
Proof.
  intros Hsame.
  destruct c as [post r s sg a recv|fuel now post|block|get|node|node]; simpl.
  - by apply add_transaction_same_attributes.
  - pose proof (mine_block_same_attributes fuel now post l1 l2 Hsame) as H.
    destruct (mine_block fuel now post l1) as [[r1 l1']| |],
             (mine_block fuel now post l2) as [[r2 l2']| |]; try done.
    by destruct H.
  - pose proof (add_block_same_attributes block l1 l2 Hsame) as H.
    destruct (add_block block l1) as [[r1 l1']| |],
             (add_block block l2) as [[r2 l2']| |]; try done.
    by destruct H.
  - by apply resolve_same_attributes.
  - apply save_data_same_attributes. same_attrs.
  - apply save_data_same_attributes. same_attrs.
Qed.

End Ledger.

(** ** Properties of src/assignment.py *)

(** Once the file holds the list, it keeps holding it and nothing typed
    is lost: from a state whose file holds [inputs], the loop never
    crashes, the command ["o"] changes nothing, and at the end [inputs]
    is the list before followed by the lines entered, which is also what
    the file holds. *)
Lemma loop_in_sync lines : forall s,
  Assignment.input_txt s = Assignment.Holds (Assignment.inputs s) ->
  exists s',
    Assignment.final (Assignment.loop lines s) = Some s'
    /\ Assignment.inputs s'
       = Assignment.inputs s ++ Assignment.entered lines
    /\ Assignment.input_txt s' = Assignment.Holds (Assignment.inputs s').
Proof.
  induction lines as [|user_input rest IH]; intros s Hs; simpl.
  - exists s. by rewrite app_nil_r.
  - destruct (String.eqb user_input "q"); simpl.
    { exists s. by rewrite app_nil_r. }
    destruct (String.eqb user_input "o").
    + rewrite Hs. destruct (IH (Assignment.mkState (Assignment.inputs s)
                                  (Assignment.input_txt s)) Hs)
        as (s' & Hfinal & Hin & Hfile).
      simpl in *. rewrite Hs in Hfinal. by exists s'.
    + destruct (IH (Assignment.mkState (Assignment.inputs s ++ [user_input])
                      (Assignment.Holds (Assignment.inputs s ++ [user_input])))
                   eq_refl) as (s' & Hfinal & Hin & Hfile).
      exists s'. split; [done|]. split; [|done].
      simpl in Hin. by rewrite Hin, <- app_assoc.
Qed.

(** X17: when the script ends without an exception, either nothing was
    entered or loaded and [input.txt] is as it was found, or the file
    holds exactly the list [inputs]: the two never differ. *)
Theorem assignment_exit f lines s' :
  Assignment.final (Assignment.loop lines (Assignment.start f)) = Some s' ->
  (Assignment.inputs s' = [] /\ Assignment.input_txt s' = f
   /\ Assignment.entered lines = [])
  \/ (Assignment.input_txt s' = Assignment.Holds (Assignment.inputs s')
      /\ exists loaded,
           Assignment.inputs s' = loaded ++ Assignment.entered lines).
Proof.
  destruct lines as [|user_input rest]; simpl.
  { intros [= <-]. by left. }
  destruct (String.eqb user_input "q"); simpl.
  { intros [= <-]. by left. }
  destruct (String.eqb user_input "o").
  - destruct f as [| |saved]; simpl; try done.
    destruct (loop_in_sync rest
                (Assignment.mkState saved (Assignment.Holds saved)) eq_refl)
      as (s1 & Hfinal & Hin & Hfile).
    rewrite Hfinal. intros [= <-]. right. split; [done|]. by exists saved.
  - destruct (loop_in_sync rest
                (Assignment.mkState [user_input] (Assignment.Holds [user_input]))
                eq_refl) as (s1 & Hfinal & Hin & Hfile).
    simpl in *. rewrite Hfinal. intros [= <-]. right. split; [done|].
    by exists [].
Qed.

(** X18: a run of the script that starts by a line that is no command
    replaces whatever [input.txt] held: at the end the list and the file
    are that line followed by the lines entered after it, whether the
    file was absent, unparsable or held the inputs of an earlier run. *)
Theorem assignment_first_line_overwrites f user_input rest :
  user_input ≠ "q" -> user_input ≠ "o" ->
  exists s',
    Assignment.final (Assignment.loop (user_input :: rest) (Assignment.start f))
    = Some s'
    /\ Assignment.inputs s' = user_input :: Assignment.entered rest
    /\ Assignment.input_txt s' = Assignment.Holds (Assignment.inputs s').
Proof.
  intros Hq Ho. simpl.
  apply String.eqb_neq in Hq as ->. apply String.eqb_neq in Ho as ->.
  destruct (loop_in_sync rest
              (Assignment.mkState [user_input] (Assignment.Holds [user_input]))
              eq_refl) as (s' & Hfinal & Hin & Hfile).
  by exists s'.
Qed.

(** X19: the command ["o"] as the first line loads the list an earlier
    run saved, and the lines entered after it extend that list; with no
    file it ends the script by [FileNotFoundError], and with a file that
    does not parse by [JSONDecodeError], in both cases before anything
    is written. *)
Theorem assignment_output_first rest :
  (forall saved,
     exists s',
       Assignment.final
         (Assignment.loop ("o" :: rest)
                          (Assignment.start (Assignment.Holds saved)))
       = Some s'
       /\ Assignment.inputs s' = saved ++ Assignment.entered rest
       /\ Assignment.input_txt s' = Assignment.Holds (Assignment.inputs s'))
  /\ Assignment.loop ("o" :: rest) (Assignment.start Assignment.Absent)
     = Assignment.Crash Assignment.FileNotFoundError
                        (Assignment.start Assignment.Absent)
  /\ Assignment.loop ("o" :: rest) (Assignment.start Assignment.Unparsable)
     = Assignment.Crash Assignment.JSONDecodeError
                        (Assignment.start Assignment.Unparsable).
Proof.
  split; [|by split].
  intros saved. simpl.
  destruct (loop_in_sync rest
              (Assignment.mkState saved (Assignment.Holds saved)) eq_refl)
    as (s' & Hfinal & Hin & Hfile).
  by exists s'.
Qed.

(** ** Worked examples on the small instance *)

Local Abbreviation toy5 thm :=
  (thm Toy.sha256_hexdigest Toy.json_dumps Toy.to_ordered_dict
       Toy.valid_proof Toy.Wallet_verify_transaction).
Local Abbreviation toy4 thm :=
  (thm Toy.sha256_hexdigest Toy.json_dumps Toy.to_ordered_dict
       Toy.valid_proof).

Local Abbreviation toy_mine_block :=
  (mine_block Toy.sha256_hexdigest Toy.json_dumps Toy.to_ordered_dict
              Toy.valid_proof Toy.Wallet_verify_transaction).
Local Abbreviation toy_add_block :=
  (add_block Toy.sha256_hexdigest Toy.json_dumps Toy.to_ordered_dict
             Toy.valid_proof).
Local Abbreviation toy_resolve :=
  (resolve Toy.sha256_hexdigest Toy.json_dumps Toy.to_ordered_dict
           Toy.valid_proof).
Local Abbreviation toy_hash_block :=
  (hash_block Toy.sha256_hexdigest Toy.json_dumps Toy.to_ordered_dict).
Local Abbreviation toy_verify_chain :=
  (verify_chain Toy.sha256_hexdigest Toy.json_dumps Toy.to_ordered_dict
                Toy.valid_proof).
Local Abbreviation toy_chain_linked :=
  (chain_linked Toy.sha256_hexdigest Toy.json_dumps Toy.to_ordered_dict
                Toy.valid_proof).
Local Abbreviation toy_mined :=
  (mined Toy.sha256_hexdigest Toy.json_dumps Toy.to_ordered_dict
         Toy.valid_proof Toy.Wallet_verify_transaction).
Local Abbreviation toy_reachable :=
  (reachable Toy.sha256_hexdigest Toy.json_dumps Toy.to_ordered_dict
             Toy.valid_proof Toy.Wallet_verify_transaction).

Example mine_block_node :
  toy_mine_block 5 1700000000 Toy.silent Toy.node
  = Return (Some Toy.first_block, Toy.mined_once).
Proof. vm_compute. reflexivity. Qed.

Example mine_block_needs_fuel :
  toy_mine_block 2 1700000000 Toy.silent Toy.node = OutOfFuel.
Proof. vm_compute. reflexivity. Qed.

Example add_block_incoming :
  toy_add_block Toy.incoming Toy.pending
  = Return (true,
            mkBlockchain [genesis_block; Block_of_dict Toy.incoming]
              [Toy.c_to_d] (Some "M") ∅ "5000" false
              (FilePickled
                 (mkSnapshot [genesis_block; Block_of_dict Toy.incoming]
                             [Toy.c_to_d] ∅)) true).
Proof. vm_compute. reflexivity. Qed.

Example add_block_repeated :
  toy_add_block Toy.repeated Toy.crowded
  = Return (true,
            mkBlockchain [genesis_block; Block_of_dict Toy.repeated]
              [Toy.c_to_d] (Some "M") ∅ "5000" false FileMissing false).
Proof. vm_compute. reflexivity. Qed.

Example add_block_misplaced :
  toy_add_block Toy.misplaced Toy.node = Return (true, Toy.misindexed).
Proof. vm_compute. reflexivity. Qed.

(** The scenario of the specification: ["A"] holds 10 coins and sends 3
    to ["B"] in a block mined by ["M"]. *)
Example get_balance_scenario :
  get_balance Toy.settled (Some "M") = Some 10%Z
  /\ get_balance Toy.settled (Some "A") = Some 7%Z
  /\ get_balance Toy.settled (Some "B") = Some 3%Z
  /\ get_balance Toy.settled None = Some 10%Z.
Proof. repeat split; vm_compute; reflexivity. Qed.

Example add_transaction_declined :
  add_transaction Toy.decline "B" "A" "sig" 3 false Toy.funded
  = (false,
     mkBlockchain [genesis_block; Toy.grant] [Toy.a_to_b] (Some "A")
       {[Toy.peer]} "5000" false
       (FilePickled (mkSnapshot [genesis_block; Toy.grant] [Toy.a_to_b]
                                {[Toy.peer]})) true).
Proof. vm_compute. reflexivity. Qed.

Example resolve_scenario :
  toy_resolve Toy.peer_chains Toy.contested
  = (true,
     mkBlockchain
       [genesis_block; Toy.first_block; Toy.second_block; Toy.third_block]
       [] (Some "M") {[Toy.peer; Toy.other_peer]} "5000" false
       (FilePickled
          (mkSnapshot
             [genesis_block; Toy.first_block; Toy.second_block; Toy.third_block]
             [] {[Toy.peer; Toy.other_peer]})) true).
Proof. vm_compute. reflexivity. Qed.

(** ** Instances of the theorems *)

Lemma mined_chain_verifies_witness :
  toy_mined Toy.mined_once
  /\ toy_chain_linked (chain Toy.mined_once)
  /\ toy_verify_chain (chain Toy.mined_once) = true.
Proof.
  assert (toy_mined Toy.mined_once) as H.
  { apply (mined_block _ _ _ _ _ 5 1700000000 Toy.silent Toy.node
                       (Some Toy.first_block)).
    - apply mined_genesis. reflexivity.
    - vm_compute. reflexivity. }
  split; [exact H|].
  exact (mined_chain_verifies _ _ _ _ _ Toy.mined_once H).
Defined.



Lemma add_block_rejects_witness :
  toy_add_block Toy.tampered Toy.pending = Return (false, Toy.pending).
Proof.
  apply (add_block_rejects _ _ _ _ Toy.tampered Toy.pending genesis_block).
  - reflexivity.
  - right. vm_compute. discriminate.
Defined.

Lemma add_block_accepts_witness :
  exists l',
    toy_add_block Toy.incoming Toy.pending = Return (true, l')
    /\ chain l' = chain Toy.pending ++ [Block_of_dict Toy.incoming]
    /\ open_transactions l' = [Toy.c_to_d].
Proof.
  destruct (add_block_accepts Toy.sha256_hexdigest Toy.json_dumps
              Toy.to_ordered_dict Toy.valid_proof Toy.incoming Toy.pending genesis_block)
    as (l' & Hret & Hchain & Hpool & _).
  - reflexivity.
  - vm_compute. reflexivity.
  - vm_compute. reflexivity.
  - exists l'. split; [exact Hret|]. split; [exact Hchain|].
    rewrite Hpool. vm_compute. reflexivity.
Defined.

(** C6 as stated fails: [add_block] appends a block of a peer under the
    index the peer gave it. *)
Lemma reachable_not_indexed :
  Blockchain_init (Some "M") "5000" FileMissing true = Return Toy.node
  /\ toy_reachable any_input Toy.node Toy.misindexed
  /\ ~ chain_indexed (chain Toy.misindexed).
Proof.
  split; [reflexivity|]. split.
  - apply (reachable_call _ _ _ _ _ _ _ Toy.node (AddBlock Toy.misplaced)).
    + apply reachable_init.
    + exact I.
    + vm_compute. reflexivity.
  - intros H. specialize (H 1%nat _ eq_refl). discriminate H.
Qed.

Example add_block_accepted :
  toy_add_block Toy.incoming Toy.node = Return (true, Toy.accepted).
Proof. vm_compute. reflexivity. Qed.

Example add_block_misplaced_rejected :
  toy_add_block Toy.misplaced Toy.accepted = Return (false, Toy.accepted).
Proof. vm_compute. reflexivity. Qed.

Example resolve_accepted_peered :
  toy_resolve Toy.peer_chains Toy.accepted_peered = (true, Toy.reconciled).
Proof. vm_compute. reflexivity. Qed.

(** A block of a peer accepted at its position, a misplaced block
    rejected, a peer added and the chain of that peer adopted. *)
Lemma reachable_indexed_witness :
  toy_reachable (toy4 indexed_input) Toy.node Toy.reconciled
  /\ chain_indexed (chain Toy.reconciled).
Proof.
  assert (toy_reachable (toy4 indexed_input) Toy.node Toy.reconciled) as H.
  { apply (reachable_call _ _ _ _ _ _ _ Toy.accepted_peered
             (Resolve Toy.peer_chains)).
    - apply (reachable_call _ _ _ _ _ _ _ Toy.accepted
               (AddPeerNode Toy.other_peer)).
      + apply (reachable_call _ _ _ _ _ _ _ Toy.accepted
                 (AddBlock Toy.misplaced)).
        * apply (reachable_call _ _ _ _ _ _ _ Toy.node
                   (AddBlock Toy.incoming)).
          -- apply reachable_init.
          -- intros l' _. reflexivity.
          -- vm_compute. reflexivity.
        * intros l' Haccept. rewrite add_block_misplaced_rejected in Haccept.
          discriminate Haccept.
        * vm_compute. reflexivity.
      + exact I.
      + vm_compute. reflexivity.
    - intros node node_chain _ _ _ Hadopted. rewrite <- Hadopted.
      rewrite resolve_accepted_peered. simpl.
      intros i block Hi.
      destruct i as [|[|[|[|i]]]]; simpl in Hi; try discriminate Hi;
        injection Hi as <-; reflexivity.
    - vm_compute. reflexivity. }
  split; [exact H|].
  apply (reachable_indexed Toy.sha256_hexdigest Toy.json_dumps
           Toy.to_ordered_dict Toy.valid_proof Toy.Wallet_verify_transaction
           (Some "M") "5000" FileMissing true Toy.node Toy.reconciled).
  - reflexivity.
  - intros s Hs. discriminate Hs.
  - exact H.
Defined.

Lemma mine_block_aborts_witness :
  toy_mine_block 5 1700000000 Toy.silent Toy.forged = Return (None, Toy.forged).
Proof.
  apply (mine_block_aborts _ _ _ _ _ 5 1700000000 Toy.silent Toy.forged).
  right. split.
  - exists (mkTransaction "A" "B" "forged" 0). split.
    + apply list_elem_of_here.
    + reflexivity.
  - exists genesis_block, 1%Z. repeat split.
    + lia.
    + vm_compute. lia.
Defined.

Lemma resolve_false_frame_witness :
  fst (toy_resolve Toy.short_chain Toy.funded) = false
  /\ chain (snd (toy_resolve Toy.short_chain Toy.funded)) = chain Toy.funded
  /\ open_transactions (snd (toy_resolve Toy.short_chain Toy.funded))
     = open_transactions Toy.funded.
Proof.
  assert (fst (toy_resolve Toy.short_chain Toy.funded) = false) as H.
  { vm_compute. reflexivity. }
  split; [exact H|].
  destruct (resolve_false_frame Toy.sha256_hexdigest Toy.json_dumps
              Toy.to_ordered_dict Toy.valid_proof Toy.short_chain Toy.funded H)
    as (Hc & Ho & _).
  split; assumption.
Defined.

(** ** Instances of the further properties *)

Example mine_block_declined_funded :
  toy_mine_block 5 7 Toy.decline Toy.funded = Return (None, Toy.funded_declined).
Proof. vm_compute. reflexivity. Qed.

Example mine_block_conflict_funded :
  toy_mine_block 5 7 Toy.conflict Toy.funded
  = Return (Some Toy.funded_block, Toy.funded_conflicted).
Proof. vm_compute. reflexivity. Qed.

Example mine_block_pending :
  toy_mine_block 5 9 Toy.silent Toy.pending
  = Return (Some Toy.pending_block, Toy.pending_mined).
Proof. vm_compute. reflexivity. Qed.

Lemma toy_mined_once_reachable :
  toy_reachable any_input Toy.node Toy.mined_once.
Proof.
  apply (reachable_call _ _ _ _ _ _ _ Toy.node
           (MineBlock 5 1700000000 Toy.silent)).
  - apply reachable_init.
  - exact I.
  - vm_compute. reflexivity.
Qed.

Lemma toy_mined_once_mined : toy_mined Toy.mined_once.
Proof.
  apply (mined_block _ _ _ _ _ 5 1700000000 Toy.silent Toy.node
                     (Some Toy.first_block)).
  - apply mined_genesis. reflexivity.
  - vm_compute. reflexivity.
Qed.

Lemma save_data_round_trip_witness :
  exists l',
    Blockchain_init None "5001" (file (save_data Toy.pending)) false = Return l'
    /\ chain l' = chain Toy.pending
    /\ open_transactions l' = open_transactions Toy.pending
    /\ peer_nodes l' = peer_nodes Toy.pending.
Proof. apply (save_data_round_trip Toy.pending None "5001" false). reflexivity. Defined.

Lemma restart_recovers_witness :
  exists l',
    Blockchain_init None "5000" (file Toy.mined_once) false = Return l'
    /\ chain l' = chain Toy.mined_once
    /\ open_transactions l' = open_transactions Toy.mined_once
    /\ peer_nodes l' = peer_nodes Toy.mined_once
    /\ resolve_conflicts l' = false.
Proof.
  apply (toy5 restart_recovers (Some "M") "5000" FileMissing Toy.node
              Toy.mined_once None "5000" false).
  - reflexivity.
  - exact toy_mined_once_reachable.
Defined.

Lemma reachable_last_block_witness :
  (exists last_block, last_item (chain Toy.mined_once) = Some last_block)
  /\ get_last_blockchain_value Toy.mined_once = last_item (chain Toy.mined_once)
  /\ forall c,
       run Toy.sha256_hexdigest Toy.json_dumps Toy.to_ordered_dict
           Toy.valid_proof Toy.Wallet_verify_transaction c Toy.mined_once
       ≠ Raise IndexError.
Proof.
  apply (toy5 reachable_last_block (Some "M") "5000" FileMissing true
              Toy.node Toy.mined_once).
  - reflexivity.
  - intros s Hs. discriminate Hs.
  - exact toy_mined_once_reachable.
Defined.

Lemma reachable_verifies_witness :
  toy_verify_chain (chain Toy.mined_once) = true.
Proof.
  apply (toy5 reachable_verifies (Some "M") "5000" FileMissing true
              Toy.node Toy.mined_once).
  - reflexivity.
  - intros s Hs. discriminate Hs.
  - exact toy_mined_once_reachable.
Defined.

Lemma run_chain_grows_witness :
  length (chain Toy.node) <= length (chain Toy.mined_once)
  /\ (chain Toy.node `prefix_of` chain Toy.mined_once)
  /\ length (chain Toy.mined_once) <= S (length (chain Toy.node)).
Proof.
  apply (toy5 run_chain_grows (MineBlock 5 1700000000 Toy.silent)
              Toy.node Toy.mined_once).
  vm_compute. reflexivity.
Defined.

Lemma proof_of_work_least_witness :
  exists last_block,
    last_item (chain Toy.node) = Some last_block
    /\ (0 <= 2)%Z
    /\ Toy.valid_proof (open_transactions Toy.node)
                       (toy_hash_block last_block) 2 = true
    /\ (forall q, (0 <= q < 2)%Z ->
          Toy.valid_proof (open_transactions Toy.node)
                          (toy_hash_block last_block) q = false)
    /\ forall fuel', 5 <= fuel' ->
         proof_of_work Toy.sha256_hexdigest Toy.json_dumps Toy.to_ordered_dict
                       Toy.valid_proof fuel' Toy.node = Return 2%Z.
Proof.
  apply (toy4 proof_of_work_least 5 Toy.node 2%Z). vm_compute. reflexivity.
Defined.

Lemma mine_block_declined_witness :
  exists block,
    chain Toy.funded_declined = chain Toy.funded ++ [block]
    /\ open_transactions Toy.funded_declined = []
    /\ exists node status_code,
        node ∈ peer_nodes Toy.funded
        /\ Toy.decline node (dict_of_Block block) = Status status_code
        /\ (status_code = 400 \/ status_code = 500)%Z.
Proof.
  apply (toy5 mine_block_declined 5 7%Z Toy.decline Toy.funded
              Toy.funded_declined "A").
  - vm_compute. reflexivity.
  - reflexivity.
  - reflexivity.
Defined.

Lemma mine_block_conflict_witness :
  resolve_conflicts Toy.funded = false
  /\ (resolve_conflicts Toy.funded_conflicted = true <->
      resolve_conflicts Toy.funded = true
      \/ exists node, node ∈ peer_nodes Toy.funded
                      /\ Toy.conflict node (dict_of_Block Toy.funded_block)
                         = Status 409).
Proof.
  split; [reflexivity|].
  apply (toy5 mine_block_conflict 5 7%Z Toy.conflict Toy.funded
              Toy.funded_block Toy.funded_conflicted).
  vm_compute. reflexivity.
Defined.

Lemma toy_mined_once_mined_by :
  mined_by Toy.sha256_hexdigest Toy.json_dumps Toy.to_ordered_dict
           Toy.valid_proof Toy.Wallet_verify_transaction "M" Toy.mined_once.
Proof.
  apply (mined_by_block _ _ _ _ _ "M" 5 1700000000 Toy.silent Toy.node
                        (Some Toy.first_block)).
  - apply mined_by_genesis; reflexivity.
  - vm_compute. reflexivity.
Qed.

Lemma mined_blocks_rewarded_witness :
  public_key Toy.mined_once = Some "M"
  /\ exists blocks,
       chain Toy.mined_once = genesis_block :: blocks
       /\ Forall (rewarded Toy.Wallet_verify_transaction "M") blocks
       /\ chain_indexed (chain Toy.mined_once).
Proof.
  exact (toy5 mined_blocks_rewarded "M" Toy.mined_once toy_mined_once_mined_by).
Defined.

Lemma get_last_blockchain_value_mined_witness :
  get_last_blockchain_value Toy.mined_once = Some Toy.first_block
  /\ get_last_blockchain_value (set_chain [] Toy.node) = None.
Proof.
  destruct (toy5 get_last_blockchain_value_mined 5 1700000000%Z Toy.silent
                 Toy.node Toy.first_block Toy.mined_once)
    as (Hlast & Hempty & _).
  - vm_compute. reflexivity.
  - split; [exact Hlast|]. apply Hempty. reflexivity.
Defined.

Lemma add_transaction_admitted_witness :
  open_transactions
    (snd (add_transaction Toy.decline "B" "A" "sig" 3 false Toy.funded))
  = open_transactions Toy.funded ++ [Toy.a_to_b]
  /\ exists balance,
       get_balance Toy.funded (Some "A") = Some balance
       /\ get_balance
            (snd (add_transaction Toy.decline "B" "A" "sig" 3 false Toy.funded))
            (Some "A")
          = Some (balance - 3)%Z.
Proof.
  destruct (add_transaction_admitted Toy.decline "B" "A" "sig" 3 false
              Toy.funded) as (Hpool & Hbalance).
  - vm_compute. reflexivity.
  - split; [exact Hpool|]. exact (Hbalance "A").
Defined.

Lemma mine_block_balance_witness :
  exists balance,
    get_balance Toy.pending (Some "B") = Some balance
    /\ get_balance Toy.pending_mined (Some "B") = Some (balance + 3 + 0 - 0)%Z.
Proof.
  exact (toy5 mine_block_balance 5 9%Z Toy.silent Toy.pending
              Toy.pending_block Toy.pending_mined "M" "B"
              mine_block_pending eq_refl).
Defined.

Lemma run_ignores_file_witness :
  same_attributes Toy.node Toy.read_only
  /\ same_attributes Toy.mined_once Toy.read_only_mined.
Proof.
  assert (same_attributes Toy.node Toy.read_only) as Hsame.
  { repeat split. }
  split; [exact Hsame|].
  pose proof (toy5 run_ignores_file (MineBlock 5 1700000000 Toy.silent)
                   Toy.node Toy.read_only Hsame) as H.
  vm_compute in H. vm_compute. exact H.
Defined.

Lemma assignment_exit_witness :
  (Assignment.inputs (Assignment.mkState ["a"; "b"] (Assignment.Holds ["a"; "b"]))
   = []
   /\ Assignment.input_txt
        (Assignment.mkState ["a"; "b"] (Assignment.Holds ["a"; "b"]))
      = Assignment.Absent
   /\ Assignment.entered ["a"; "o"; "b"; "q"; "c"] = [])
  \/ (Assignment.input_txt
        (Assignment.mkState ["a"; "b"] (Assignment.Holds ["a"; "b"]))
      = Assignment.Holds
          (Assignment.inputs
             (Assignment.mkState ["a"; "b"] (Assignment.Holds ["a"; "b"])))
      /\ exists loaded,
           Assignment.inputs
             (Assignment.mkState ["a"; "b"] (Assignment.Holds ["a"; "b"]))
           = loaded ++ Assignment.entered ["a"; "o"; "b"; "q"; "c"]).
Proof.
  apply (assignment_exit Assignment.Absent ["a"; "o"; "b"; "q"; "c"]).
  reflexivity.
Defined.

Lemma assignment_first_line_overwrites_witness :
  exists s',
    Assignment.final
      (Assignment.loop ["new"; "o"; "q"]
                       (Assignment.start (Assignment.Holds ["old"])))
    = Some s'
    /\ Assignment.inputs s' = "new" :: Assignment.entered ["o"; "q"]
    /\ Assignment.input_txt s' = Assignment.Holds (Assignment.inputs s').
Proof.
  apply (assignment_first_line_overwrites (Assignment.Holds ["old"]) "new"
           ["o"; "q"]); discriminate.
Defined.
